(** * TPCUtils: track operations of a peer connection in unified plan mode

    A shallow embedding of [modules/RTC/TPCUtils.js] and the properties of
    its operations: the stream encodings chosen for a track, the rewriting
    of parsed session descriptions, and the bookkeeping of the peer
    connection when tracks are muted, unmuted and replaced. *)

From Stdlib Require Import ZArith NArith List Bool Ascii String DecimalString
  PrimFloat SpecFloat FloatAxioms Lia.
From stdpp Require Import base option list gmap strings.

(** ** JavaScript completions *)

(** What a failing call carries: the [Error] built by the code itself with
    its message, the [TypeError] of a property read on [undefined], or the
    reason handed back by the browser when a sender refuses a call. *)
Inductive JsError : Type :=
  | Error (message : string)
  | TypeError
  | SenderError (reason : string).

(** A synchronous call either returns or throws. *)
Inductive Completion (A : Type) : Type :=
  | Return (a : A)
  | Throw (e : JsError).
Arguments Return {A} a.
Arguments Throw {A} e.

(** The state in which a returned promise settles. *)
Inductive Settled : Type :=
  | Fulfilled
  | Rejected (e : JsError).

(** ** The collaborators *)

(** The browser capability flags read by the code. *)
Record Browser : Type := {
  isFirefox : bool;
  isVersionGreaterThan71 : bool;
  isWebKitBased : bool;
  isChromiumBased : bool;
  doesVideoMuteByStreamRemove : bool;
  usesSdpMungingForSimulcast : bool
}.

(** [MediaType]: the kinds of a track, with the strings they stand for
    (['audio'] and ['video'], as the documentation of [_findTransceiver]
    has them). *)
Inductive MediaType : Type := AUDIO | VIDEO.

Definition mediaTypeString (t : MediaType) : string :=
  match t with
  | AUDIO => "audio"
  | VIDEO => "video"
  end.

#[global] Instance MediaType_eq_dec : EqDecision MediaType.
Proof. solve_decision. Defined.

(** A [MediaStreamTrack] of the browser. *)
Record MediaStreamTrack : Type := {
  mst_id : string;
  mst_kind : string
}.

(** A [MediaStream] is only compared by identity. *)
Definition MediaStream : Type := Z.

(** The synchronization sources recorded for a local track. *)
Record TPCSSRCInfo : Type := {
  info_ssrcs : list Z;
  info_groups : list (string * list Z)
}.

(** The local track, by what the code reads of it. *)
Record JitsiLocalTrack : Type := {
  rtcId : Z;
  getType : MediaType;
  getTrack : option MediaStreamTrack;
  getTrackId : option string;
  getOriginalStream : option MediaStream;
  isMuted : bool
}.

Definition isVideoTrack (t : JitsiLocalTrack) : bool :=
  bool_decide (getType t = VIDEO).

(** ** Encodings *)

(** One [RTCRtpEncodingParameters] object; a field left out of the object
    literal is [None]. *)
Record Encoding : Type := {
  active : option bool;
  maxBitrate : option Z;
  rid : option string;
  scaleResolutionDownBy : option float
}.

Record VideoBitrates : Type := {
  low : Z;
  standard : Z;
  high : Z
}.

Definition SIM_LAYER_1_RID : string := "1".
Definition SIM_LAYER_2_RID : string := "2".
Definition SIM_LAYER_3_RID : string := "3".

Definition SIM_LAYER_RIDS : list string :=
  [SIM_LAYER_1_RID; SIM_LAYER_2_RID; SIM_LAYER_3_RID].

(** The startup configuration built by the constructor. *)
Definition makeLocalStreamEncodingsConfig (browser : Browser)
    (videoBitrates : VideoBitrates) : list Encoding :=
  [ {| active := Some true;
       maxBitrate := Some (if isFirefox browser then high videoBitrates
                           else low videoBitrates);
       rid := Some SIM_LAYER_1_RID;
       scaleResolutionDownBy := Some (if isFirefox browser then 1.0%float
                                      else 4.0%float) |};
    {| active := Some true;
       maxBitrate := Some (standard videoBitrates);
       rid := Some SIM_LAYER_2_RID;
       scaleResolutionDownBy := Some 2.0%float |};
    {| active := Some true;
       maxBitrate := Some (if isFirefox browser then low videoBitrates
                           else high videoBitrates);
       rid := Some SIM_LAYER_3_RID;
       scaleResolutionDownBy := Some (if isFirefox browser then 4.0%float
                                      else 1.0%float) |} ].

(** ** The peer connection *)

Inductive TransceiverDirection : Type :=
  | INACTIVE
  | RECVONLY
  | SENDONLY
  | SENDRECV.

(** The parameters a sender reports through [getParameters]; [encodings]
    may be missing. *)
Record RTCRtpParameters : Type := {
  encodings : option (list Encoding)
}.

Record RTCRtpReceiver : Type := {
  receiver_track : option MediaStreamTrack
}.

Record RTCRtpSender : Type := {
  sender_track : option MediaStreamTrack;
  sender_parameters : RTCRtpParameters
}.

(** A transceiver always has its receiver and its sender; the track of
    either may be missing. *)
Record RTCRtpTransceiver : Type := {
  receiver : RTCRtpReceiver;
  sender : RTCRtpSender;
  direction : TransceiverDirection
}.

(** A call made on the sender of the transceiver at a position of
    [getTransceivers()]. The peer connection keeps the history of these
    calls, so that "no sender was touched" can be stated. *)
Inductive SenderCall : Type :=
  | CallReplaceTrack (position : nat) (track : option MediaStreamTrack)
  | CallSetParameters (position : nat) (parameters : RTCRtpParameters).

(** The [TraceablePeerConnection] as far as the code reads and writes it.
    [localSSRCs] holds [None] for a key set to [undefined]. *)
Record TraceablePeerConnection : Type := {
  transceivers : list RTCRtpTransceiver;
  localTracks : gmap Z JitsiLocalTrack;
  localSSRCs : gmap Z (option TPCSSRCInfo);
  _addedStreams : list MediaStream;
  isSimulcastOn : bool;
  senderCalls : list SenderCall
}.

(** How the browser answers the calls made on a sender: [None] when the call
    succeeds, the reason of the rejection otherwise. *)
Record Transport : Type := {
  replaceTrackAnswer : nat -> option MediaStreamTrack -> option JsError;
  setParametersAnswer : nat -> RTCRtpParameters -> option JsError
}.

Record TPCUtils : Type := {
  pc : TraceablePeerConnection;
  videoBitrates : VideoBitrates;
  localStreamEncodingsConfig : list Encoding
}.

(** [new TPCUtils(peerconnection, videoBitrates)], [bitrates] being what
    [videoBitrates.VP8 || videoBitrates] selects. *)
Definition constructor (browser : Browser) (peerconnection : TraceablePeerConnection)
    (bitrates : VideoBitrates) : TPCUtils :=
  {| pc := peerconnection;
     videoBitrates := bitrates;
     localStreamEncodingsConfig := makeLocalStreamEncodingsConfig browser bitrates |}.

Definition with_pc (this : TPCUtils) (p : TraceablePeerConnection) : TPCUtils :=
  {| pc := p;
     videoBitrates := videoBitrates this;
     localStreamEncodingsConfig := localStreamEncodingsConfig this |}.

(** *** Map and array primitives *)

(** [Map.prototype.get]: [undefined] for a missing key. *)
Definition map_get (m : gmap Z (option TPCSSRCInfo)) (k : Z) : option TPCSSRCInfo :=
  match m !! k with
  | Some v => v
  | None => None
  end.

(** [Array.prototype.find], with the position of the element found. *)
Fixpoint js_find {A : Type} (p : A -> bool) (l : list A) : option (nat * A) :=
  match l with
  | [] => None
  | x :: r =>
      if p x then Some (0%nat, x)
      else match js_find p r with
           | Some (i, y) => Some (S i, y)
           | None => None
           end
  end.

(** [Array.prototype.findIndex]: [-1] when no element passes. *)
Fixpoint findIndex {A : Type} (p : A -> bool) (l : list A) : Z :=
  match l with
  | [] => (-1)%Z
  | x :: r =>
      if p x then 0%Z
      else let i := findIndex p r in
           if (i <? 0)%Z then (-1)%Z else (i + 1)%Z
  end.

(** [array[i]] for a number [i]: [undefined] out of range. *)
Definition js_index {A : Type} (l : list A) (i : Z) : option A :=
  if (i <? 0)%Z then None else l !! Z.to_nat i.

(** [===] between two values that may be [undefined] or [null] on either
    side and are strings otherwise: a missing side is never equal. *)
Definition strict_eq_string (a b : option string) : bool :=
  match a, b with
  | Some x, Some y => String.eqb x y
  | _, _ => false
  end.

(** *** Transceiver lookup *)

(** [t.receiver?.track?.kind === mediaType]. *)
Definition receives (mediaType : MediaType) (t : RTCRtpTransceiver) : bool :=
  strict_eq_string (mst_kind <$> receiver_track (receiver t))
                   (Some (mediaTypeString mediaType)).

(** [t.sender?.track?.id === localTrack.getTrackId()]. *)
Definition sends (localTrack : JitsiLocalTrack) (t : RTCRtpTransceiver) : bool :=
  strict_eq_string (mst_id <$> sender_track (sender t)) (getTrackId localTrack).

Definition _findTransceiver (browser : Browser) (this : TPCUtils)
    (mediaType : MediaType) (localTrack : option JitsiLocalTrack)
    : option (nat * RTCRtpTransceiver) :=
  let trackRemoved :=
    match localTrack with
    | None => true
    | Some t => doesVideoMuteByStreamRemove browser && isVideoTrack t && isMuted t
    end in
  if trackRemoved then
    js_find (receives mediaType) (transceivers (pc this))
  else
    match localTrack with
    | Some lt => js_find (sends lt) (transceivers (pc this))
    | None => None
    end.

(** *** Stream encodings *)

Definition _getStreamEncodings (this : TPCUtils) (localTrack : JitsiLocalTrack)
    : list Encoding :=
  if isSimulcastOn (pc this) && isVideoTrack localTrack then
    localStreamEncodingsConfig this
  else if isVideoTrack localTrack then
    [ {| active := Some true;
         maxBitrate := Some (high (videoBitrates this));
         rid := None;
         scaleResolutionDownBy := None |} ]
  else
    [ {| active := Some true;
         maxBitrate := None;
         rid := None;
         scaleResolutionDownBy := None |} ].

(** *** Calls on a sender *)

Definition record_call (p : TraceablePeerConnection) (c : SenderCall)
    : TraceablePeerConnection :=
  {| transceivers := transceivers p;
     localTracks := localTracks p;
     localSSRCs := localSSRCs p;
     _addedStreams := _addedStreams p;
     isSimulcastOn := isSimulcastOn p;
     senderCalls := senderCalls p ++ [c] |}.

Definition set_transceivers (p : TraceablePeerConnection)
    (ts : list RTCRtpTransceiver) : TraceablePeerConnection :=
  {| transceivers := ts;
     localTracks := localTracks p;
     localSSRCs := localSSRCs p;
     _addedStreams := _addedStreams p;
     isSimulcastOn := isSimulcastOn p;
     senderCalls := senderCalls p |}.

Definition set_sender_track (t : RTCRtpTransceiver) (track : option MediaStreamTrack)
    : RTCRtpTransceiver :=
  {| receiver := receiver t;
     sender := {| sender_track := track;
                  sender_parameters := sender_parameters (sender t) |};
     direction := direction t |}.

Definition set_sender_parameters (t : RTCRtpTransceiver) (ps : RTCRtpParameters)
    : RTCRtpTransceiver :=
  {| receiver := receiver t;
     sender := {| sender_track := sender_track (sender t);
                  sender_parameters := ps |};
     direction := direction t |}.

Definition set_direction (t : RTCRtpTransceiver) (d : TransceiverDirection)
    : RTCRtpTransceiver :=
  {| receiver := receiver t; sender := sender t; direction := d |}.

(** [transceiver.sender.replaceTrack(track)] on the transceiver at position
    [i]: the call is issued; when the browser accepts it the sender carries
    [track]. *)
Definition sender_replaceTrack (transport : Transport) (this : TPCUtils)
    (i : nat) (track : option MediaStreamTrack) : TPCUtils * Settled :=
  let p := record_call (pc this) (CallReplaceTrack i track) in
  match replaceTrackAnswer transport i track with
  | Some e => (with_pc this p, Rejected e)
  | None =>
      (with_pc this
         (set_transceivers p
            (alter (fun t => set_sender_track t track) i (transceivers p))),
       Fulfilled)
  end.

(** [transceiver.sender.setParameters(parameters)]. *)
Definition sender_setParameters (transport : Transport) (this : TPCUtils)
    (i : nat) (parameters : RTCRtpParameters) : TPCUtils * Settled :=
  let p := record_call (pc this) (CallSetParameters i parameters) in
  match setParametersAnswer transport i parameters with
  | Some e => (with_pc this p, Rejected e)
  | None =>
      (with_pc this
         (set_transceivers p
            (alter (fun t => set_sender_parameters t parameters) i (transceivers p))),
       Fulfilled)
  end.

(** [promise.then(callback)]: the callback runs on the state left by a
    fulfilled promise; a rejection passes through. *)
Definition and_then (r : TPCUtils * Settled) (callback : TPCUtils -> TPCUtils * Settled)
    : TPCUtils * Settled :=
  match r with
  | (this, Fulfilled) => callback this
  | (this, Rejected e) => (this, Rejected e)
  end.

Definition not_found_message (mediaType : MediaType) : string :=
  ("RTCRtpTransceiver for " ++ mediaTypeString mediaType ++ " not found")%string.

(** *** Mute and unmute *)

Definition addTrackUnmute (browser : Browser) (transport : Transport)
    (this : TPCUtils) (localTrack : JitsiLocalTrack) : TPCUtils * Settled :=
  let mediaType := getType localTrack in
  let track := getTrack localTrack in
  match _findTransceiver browser this mediaType None with
  | None => (this, Rejected (Error (not_found_message mediaType)))
  | Some (i, _) => sender_replaceTrack transport this i track
  end.

Definition removeTrackMute (browser : Browser) (transport : Transport)
    (this : TPCUtils) (localTrack : JitsiLocalTrack) : TPCUtils * Settled :=
  let mediaType := getType localTrack in
  match _findTransceiver browser this mediaType (Some localTrack) with
  | None => (this, Rejected (Error (not_found_message mediaType)))
  | Some (i, _) => sender_replaceTrack transport this i None
  end.

(** *** Encodings of a sender *)

(** [!parameters?.encodings?.length]. *)
Definition no_encodings (parameters : option RTCRtpParameters) : bool :=
  match parameters with
  | Some {| encodings := Some (_ :: _) |} => false
  | _ => true
  end.

Definition setEncodings (browser : Browser) (transport : Transport)
    (this : TPCUtils) (track : JitsiLocalTrack) : TPCUtils * Settled :=
  let mediaType := getType track in
  let transceiver := _findTransceiver browser this mediaType (Some track) in
  let parameters :=
    (fun it : nat * RTCRtpTransceiver => sender_parameters (sender it.2)) <$> transceiver in
  if no_encodings parameters then (this, Fulfilled)
  else
    match transceiver with
    | Some (i, _) =>
        sender_setParameters transport this i
          {| encodings := Some (_getStreamEncodings this track) |}
    | None => (this, Fulfilled)
    end.

(** *** Replacing a track *)

Definition set_localTracks (p : TraceablePeerConnection)
    (m : gmap Z JitsiLocalTrack) : TraceablePeerConnection :=
  {| transceivers := transceivers p;
     localTracks := m;
     localSSRCs := localSSRCs p;
     _addedStreams := _addedStreams p;
     isSimulcastOn := isSimulcastOn p;
     senderCalls := senderCalls p |}.

Definition set_localSSRCs (p : TraceablePeerConnection)
    (m : gmap Z (option TPCSSRCInfo)) : TraceablePeerConnection :=
  {| transceivers := transceivers p;
     localTracks := localTracks p;
     localSSRCs := m;
     _addedStreams := _addedStreams p;
     isSimulcastOn := isSimulcastOn p;
     senderCalls := senderCalls p |}.

Definition set_addedStreams (p : TraceablePeerConnection)
    (l : list MediaStream) : TraceablePeerConnection :=
  {| transceivers := transceivers p;
     localTracks := localTracks p;
     localSSRCs := localSSRCs p;
     _addedStreams := l;
     isSimulcastOn := isSimulcastOn p;
     senderCalls := senderCalls p |}.

(** The continuation run once the sender has taken the new track. *)
Definition replaceTrack_bookkeeping (oldTrack newTrack : JitsiLocalTrack)
    (stream : MediaStream) (this : TPCUtils) : TPCUtils * Settled :=
  let p0 := pc this in
  let ssrc := map_get (localSSRCs p0) (rtcId oldTrack) in
  let p1 := set_localTracks p0 (delete (rtcId oldTrack) (localTracks p0)) in
  let p2 := set_localSSRCs p1 (delete (rtcId oldTrack) (localSSRCs p1)) in
  let p3 := set_addedStreams p2
              (List.filter (fun s => negb (Z.eqb s stream)) (_addedStreams p2)) in
  let p4 := set_localTracks p3 (<[rtcId newTrack := newTrack]> (localTracks p3)) in
  let p5 := set_addedStreams p4 (_addedStreams p4 ++ [stream]) in
  let p6 := set_localSSRCs p5 (<[rtcId newTrack := ssrc]> (localSSRCs p5)) in
  (with_pc this p6, Fulfilled).

Definition set_direction_at (this : TPCUtils) (found : option (nat * RTCRtpTransceiver))
    (d : TransceiverDirection) : TPCUtils :=
  match found with
  | Some (i, _) =>
      with_pc this
        (set_transceivers (pc this)
           (alter (fun t => set_direction t d) i (transceivers (pc this))))
  | None => this
  end.

Definition replaceTrack (browser : Browser) (transport : Transport)
    (this : TPCUtils) (oldTrack newTrack : option JitsiLocalTrack)
    : TPCUtils * Settled :=
  match oldTrack, newTrack with
  | Some o, Some n =>
      let mediaType := getType n in
      match getOriginalStream n with
      | None =>
          let p1 := set_localTracks (pc this) (delete (rtcId o) (localTracks (pc this))) in
          let p2 := set_localTracks p1 (<[rtcId n := n]> (localTracks p1)) in
          (with_pc this p2, Fulfilled)
      | Some stream =>
          let transceiver := _findTransceiver browser this mediaType (Some o) in
          let track := getTrack n in
          match transceiver with
          | None => (this, Rejected (Error "replace track failed"))
          | Some (i, _) =>
              and_then (sender_replaceTrack transport this i track)
                (replaceTrack_bookkeeping o n stream)
          end
      end
  | Some o, None =>
      and_then (removeTrackMute browser transport this o)
        (fun this1 =>
           let mediaType := getType o in
           let transceiver := _findTransceiver browser this1 mediaType None in
           let this2 := set_direction_at this1 transceiver RECVONLY in
           let p1 := set_localTracks (pc this2)
                       (delete (rtcId o) (localTracks (pc this2))) in
           let p2 := set_localSSRCs p1 (delete (rtcId o) (localSSRCs p1)) in
           (with_pc this2 p2, Fulfilled))
  | None, Some n =>
      and_then (addTrackUnmute browser transport this n)
        (fun this1 =>
           let mediaType := getType n in
           let transceiver := _findTransceiver browser this1 mediaType (Some n) in
           let this2 := set_direction_at this1 transceiver SENDRECV in
           let promise :=
             if isChromiumBased browser then (this2, Fulfilled)
             else setEncodings browser transport this2 n in
           and_then promise
             (fun this3 =>
                (with_pc this3
                   (set_localTracks (pc this3)
                      (<[rtcId n := n]> (localTracks (pc this3)))),
                 Fulfilled)))
  | None, None => (this, Fulfilled)
  end.

(** *** Reconciling the resolutions reported by the browser *)

Definition set_scaleResolutionDownBy (e : Encoding) (v : option float) : Encoding :=
  {| active := active e;
     maxBitrate := maxBitrate e;
     rid := rid e;
     scaleResolutionDownBy := v |}.

(** [allEqualEncodings]: every encoding has a downscale factor and it is
    [===] to the one of the first encoding ([PrimFloat.eqb] is the equality
    of IEEE numbers, under which NaN differs from itself). *)
Definition allEqualEncodings (encs : list Encoding) : bool :=
  forallb
    (fun encoding =>
       match scaleResolutionDownBy encoding with
       | None => false
       | Some x =>
           match head encs ≫= scaleResolutionDownBy with
           | Some y => PrimFloat.eqb x y
           | None => false
           end
       end)
    encs.

(** The [forEach] that copies the configured downscale factors by position.
    Reading [localStreamEncodingsConfig[idx]] past the end of the
    configuration gives [undefined], and the property read on it throws:
    the encodings before that position have been written, the others are
    left as they were. *)
Fixpoint copy_resolutions (config encs : list Encoding) {struct encs}
    : list Encoding * Completion unit :=
  match encs with
  | [] => ([], Return ())
  | encoding :: rest =>
      match config with
      | [] => (encoding :: rest, Throw TypeError)
      | c :: config' =>
          let (rest', r) := copy_resolutions config' rest in
          (set_scaleResolutionDownBy encoding (scaleResolutionDownBy c) :: rest', r)
      end
  end.

(** [updateEncodingsResolution(parameters)] writes into [parameters]: the
    result is the parameters as the call leaves them, and how it completes. *)
Definition updateEncodingsResolution (browser : Browser) (this : TPCUtils)
    (parameters : RTCRtpParameters) : RTCRtpParameters * Completion unit :=
  match isWebKitBased browser, encodings parameters with
  | true, Some encs =>
      if allEqualEncodings encs then
        let (encs', r) := copy_resolutions (localStreamEncodingsConfig this) encs in
        ({| encodings := Some encs' |}, r)
      else (parameters, Return ())
  | _, _ => (parameters, Return ())
  end.

(** ** Session descriptions *)

(** One [a=ssrc] line of a media section. *)
Record Source : Type := {
  source_id : N;
  attribute : option string;
  value : option string
}.

(** One [a=ssrc-group] line: the semantics and the member ids, separated by
    spaces, as one string. *)
Record SsrcGroup : Type := {
  semantics : string;
  group_ssrcs : string
}.

Record Rid : Type := {
  rid_id : string;
  rid_direction : string
}.

(** The [a=simulcast] attribute in its current form. *)
Record Simulcast : Type := {
  dir1 : string;
  list1 : string
}.

(** The [a=simulcast] attribute in the form of draft 03. *)
Record Simulcast03 : Type := {
  simulcast_value : string
}.

(** Modelled from the spec: the structured form of a media section handed
    out by the session-description codec, which is not part of the sources.
    A section has its kind, an ordered list of source descriptors (the code
    reads [mLine.ssrcs] without a presence test, so it is a list here) and
    zero or more source groupings (a grouping list left out by the codec is
    the empty list: the code treats both alike), the receive identifiers
    and the simulcast attributes where present, and the rest of its lines,
    which the code never reads. *)
Record MLine : Type := {
  type : string;
  ssrcs : list Source;
  ssrcGroups : list SsrcGroup;
  rids : option (list Rid);
  simulcast : option Simulcast;
  simulcast_03 : option Simulcast03;
  other_lines : list string
}.

(** The parsed description: its session-level lines and its media sections. *)
Record ParsedSdp : Type := {
  session_lines : list string;
  media : list MLine
}.

(** A session description object: [{ type, sdp }]. *)
Record RTCSessionDescription : Type := {
  desc_type : string;
  sdp : string
}.

(** [String.prototype.split] with a separator of one character. *)
Fixpoint split (sep : ascii) (s : string) : list string :=
  match s with
  | EmptyString => [EmptyString]
  | String c r =>
      if Ascii.eqb c sep then EmptyString :: split sep r
      else match split sep r with
           | piece :: pieces => String c piece :: pieces
           | [] => [String c EmptyString]
           end
  end.

(** [Number.prototype.toString] of a source id. *)
Definition toString (n : N) : string :=
  NilEmpty.string_of_uint (N.to_uint n).

Definition set_ssrcs (mLine : MLine) (l : list Source) : MLine :=
  {| type := type mLine;
     ssrcs := l;
     ssrcGroups := ssrcGroups mLine;
     rids := rids mLine;
     simulcast := simulcast mLine;
     simulcast_03 := simulcast_03 mLine;
     other_lines := other_lines mLine |}.

(** The body of the [forEach] over the media sections in
    [ensureCorrectOrderOfSsrcs]. *)
Definition reorder_mLine (mLine : MLine) : MLine :=
  if String.eqb (type mLine) (mediaTypeString AUDIO) then mLine
  else
    match ssrcGroups mLine with
    | [] => mLine
    | group :: _ =>
        let reorderedSsrcs :=
          fold_left
            (fun reordered ssrc =>
               reordered ++
               List.filter (fun source => String.eqb (toString (source_id source)) ssrc)
                           (ssrcs mLine))
            (split " " (group_ssrcs group)) [] in
        set_ssrcs mLine reorderedSsrcs
    end.

Definition set_media (parsed : ParsedSdp) (l : list MLine) : ParsedSdp :=
  {| session_lines := session_lines parsed; media := l |}.

Definition ensureCorrectOrderOfSsrcs_parsed (parsedSdp : ParsedSdp) : ParsedSdp :=
  set_media parsedSdp (map reorder_mLine (media parsedSdp)).

(** *** Simulcast receive lines *)

Fixpoint join (sep : string) (l : list string) : string :=
  match l with
  | [] => EmptyString
  | [x] => x
  | x :: r => (x ++ sep ++ join sep r)%string
  end.

Definition simulcastLine (browser : Browser) : string :=
  if isFirefox browser && isVersionGreaterThan71 browser
  then ("recv " ++ join ";" SIM_LAYER_RIDS)%string
  else ("recv rid=" ++ join ";" SIM_LAYER_RIDS)%string.

Definition receive_rids : list Rid :=
  [ {| rid_id := SIM_LAYER_1_RID; rid_direction := "recv" |};
    {| rid_id := SIM_LAYER_2_RID; rid_direction := "recv" |};
    {| rid_id := SIM_LAYER_3_RID; rid_direction := "recv" |} ].

(** A section after [rids], [simulcast] and [simulcast_03] have been set to
    [undefined]. *)
Definition strip_simulcast (mline : MLine) : MLine :=
  {| type := type mline;
     ssrcs := ssrcs mline;
     ssrcGroups := ssrcGroups mline;
     rids := None;
     simulcast := None;
     simulcast_03 := None;
     other_lines := other_lines mline |}.

(** A section after [rids] and [simulcast_03] have been assigned. *)
Definition add_simulcast (browser : Browser) (mline : MLine) : MLine :=
  {| type := type mline;
     ssrcs := ssrcs mline;
     ssrcGroups := ssrcGroups mline;
     rids := Some receive_rids;
     simulcast := simulcast mline;
     simulcast_03 := Some {| simulcast_value := simulcastLine browser |};
     other_lines := other_lines mline |}.

Definition is_video (mline : MLine) : bool :=
  String.eqb (type mline) (mediaTypeString VIDEO).

(** The work of [insertUnifiedPlanSimulcastReceive] on the parsed
    description, between [transform.parse] and [transform.write]. *)
Definition insertUnifiedPlanSimulcastReceive_parsed (browser : Browser)
    (parsed : ParsedSdp) : Completion ParsedSdp :=
  let idx := findIndex is_video (media parsed) in
  match js_index (media parsed) idx with
  | None => Throw TypeError
  | Some first =>
      if bool_decide (is_Some (rids first))
         && (bool_decide (is_Some (simulcast_03 first))
             || bool_decide (is_Some (simulcast first)))
      then
        Return
          (set_media parsed
             (imap (fun i mline =>
                      if is_video mline && negb (Z.of_nat i =? idx)%Z
                      then strip_simulcast mline else mline)
                   (media parsed)))
      else
        Return
          (set_media parsed
             (alter (add_simulcast browser) (Z.to_nat idx) (media parsed)))
  end.

(** The two rewriters with the codec around them. *)
Section Codec.

Variable parse : string -> ParsedSdp.
Variable write : ParsedSdp -> string.

Definition ensureCorrectOrderOfSsrcs (description : RTCSessionDescription)
    : RTCSessionDescription :=
  let parsedSdp := parse (sdp description) in
  {| desc_type := desc_type description;
     sdp := write (ensureCorrectOrderOfSsrcs_parsed parsedSdp) |}.

Definition insertUnifiedPlanSimulcastReceive (browser : Browser)
    (desc : RTCSessionDescription) : Completion RTCSessionDescription :=
  if usesSdpMungingForSimulcast browser then Return desc
  else
    match insertUnifiedPlanSimulcastReceive_parsed browser (parse (sdp desc)) with
    | Throw e => Throw e
    | Return parsed' =>
        Return {| desc_type := desc_type desc; sdp := write parsed' |}
    end.

End Codec.

(** ** Notions used by the properties *)

(** [===] between two downscale factors, either of which may be
    [undefined]. *)
Definition strict_eq_scale (a b : option float) : bool :=
  match a, b with
  | Some x, Some y => PrimFloat.eqb x y
  | None, None => true
  | _, _ => false
  end.

(** The member ids of a grouping, in their declared order. *)
Definition members (group : SsrcGroup) : list string :=
  split " " (group_ssrcs group).

(** A descriptor has the given member id. *)
Definition has_key (m : string) (source : Source) : bool :=
  String.eqb (toString (source_id source)) m.

(** The descriptors of a section whose id is a given member id. *)
Definition descriptors_of (mLine : MLine) (member : string) : list Source :=
  List.filter (has_key member) (ssrcs mLine).

(** The ids of the descriptors of a section, as the strings they are
    compared by. *)
Definition source_keys (l : list Source) : list string :=
  map (fun source => toString (source_id source)) l.

(** A list with every run of equal neighbours reduced to one element. *)
Fixpoint runs (l : list string) : list string :=
  match l with
  | [] => []
  | x :: r =>
      match r with
      | y :: _ => if String.eqb x y then runs r else x :: runs r
      | [] => [x]
      end
  end.

(** [a] stands immediately before [b] in [l]. *)
Fixpoint immediately_before (a b : string) (l : list string) : bool :=
  match l with
  | x :: r =>
      match r with
      | y :: _ => (String.eqb x a && String.eqb y b) || immediately_before a b r
      | [] => false
      end
  | [] => false
  end.

(** The ordering invariant of a section as the specification words it: in
    a section that is not audio, for every grouping of semantics [FID] the
    descriptors of the primary source come immediately before those of the
    retransmission source paired with it. *)
Definition fid_group_in_order (mLine : MLine) (group : SsrcGroup) : bool :=
  if String.eqb (semantics group) "FID" then
    match members group with
    | [primary; rtx] =>
        immediately_before primary rtx (runs (source_keys (ssrcs mLine)))
    | _ => true
    end
  else true.

Definition satisfies_ordering_invariant (parsed : ParsedSdp) : bool :=
  forallb
    (fun mLine =>
       String.eqb (type mLine) (mediaTypeString AUDIO)
       || forallb (fid_group_in_order mLine) (ssrcGroups mLine))
    (media parsed).

(** [keys] without its leading elements equal to [m]. *)
Fixpoint drop_block (m : string) (keys : list Source) : list Source :=
  match keys with
  | [] => []
  | k :: r => if has_key m k then drop_block m r else keys
  end.

(** The descriptors are a block of descriptors of the first member, then a
    block of the second, and so on (a block may be empty), and nothing
    else. *)
Fixpoint in_member_order (ms : list string) (l : list Source) : bool :=
  match ms with
  | [] => match l with [] => true | _ :: _ => false end
  | m :: ms' => in_member_order ms' (drop_block m l)
  end.

(** A section that the reordering has nothing to do on: it is audio, or has
    no grouping, or the members of its first grouping are pairwise distinct
    and its descriptors are those of these members, block after block in
    the declared order. *)
Definition lists_first_grouping (mLine : MLine) : Prop :=
  type mLine = mediaTypeString AUDIO
  \/ match ssrcGroups mLine with
     | [] => True
     | group :: _ =>
         List.NoDup (members group)
         /\ in_member_order (members group) (ssrcs mLine) = true
     end.

(** A section carries a simulcast receive advertisement when it has receive
    identifiers or a simulcast attribute of either form. *)
Definition carries_advertisement (mline : MLine) : bool :=
  bool_decide (is_Some (rids mline))
  || bool_decide (is_Some (simulcast mline))
  || bool_decide (is_Some (simulcast_03 mline)).

(** ** Sample values *)

Module Samples.

Local Open Scope Z_scope.

Definition chromium : Browser :=
  {| isFirefox := false;
     isVersionGreaterThan71 := false;
     isWebKitBased := true;
     isChromiumBased := true;
     doesVideoMuteByStreamRemove := false;
     usesSdpMungingForSimulcast := false |}.

Definition bitrates : VideoBitrates :=
  {| low := 200000; standard := 500000; high := 1500000 |}.

(** A browser that accepts every call on a sender. *)
Definition accepting : Transport :=
  {| replaceTrackAnswer := fun _ _ => None;
     setParametersAnswer := fun _ _ => None |}.

Definition camera : MediaStreamTrack := {| mst_id := "cam-1"; mst_kind := "video" |}.
Definition camera2 : MediaStreamTrack := {| mst_id := "cam-2"; mst_kind := "video" |}.
Definition remote_audio : MediaStreamTrack := {| mst_id := "r-a"; mst_kind := "audio" |}.
Definition remote_video : MediaStreamTrack := {| mst_id := "r-v"; mst_kind := "video" |}.

Definition oldTrack : JitsiLocalTrack :=
  {| rtcId := 1;
     getType := VIDEO;
     getTrack := Some camera;
     getTrackId := Some "cam-1";
     getOriginalStream := Some 7%Z;
     isMuted := false |}.

Definition newTrack : JitsiLocalTrack :=
  {| rtcId := 2;
     getType := VIDEO;
     getTrack := Some camera2;
     getTrackId := Some "cam-2";
     getOriginalStream := Some 8%Z;
     isMuted := false |}.

(** A track of a muted device: no stream has been captured for it. *)
Definition mutedTrack : JitsiLocalTrack :=
  {| rtcId := 3;
     getType := VIDEO;
     getTrack := None;
     getTrackId := None;
     getOriginalStream := None;
     isMuted := true |}.

Definition micTrack : JitsiLocalTrack :=
  {| rtcId := 4;
     getType := AUDIO;
     getTrack := Some {| mst_id := "mic-1"; mst_kind := "audio" |};
     getTrackId := Some "mic-1";
     getOriginalStream := Some 9%Z;
     isMuted := false |}.

Definition videoTransceiver : RTCRtpTransceiver :=
  {| receiver := {| receiver_track := Some remote_video |};
     sender := {| sender_track := Some camera;
                  sender_parameters := {| encodings := None |} |};
     direction := SENDRECV |}.

Definition ssrcInfo : TPCSSRCInfo :=
  {| info_ssrcs := [1111; 2222]; info_groups := [("FID"%string, [1111; 2222])] |}.

(** A connection with one video transceiver that sends [oldTrack]. *)
Definition peerconnection : TraceablePeerConnection :=
  {| transceivers := [videoTransceiver];
     localTracks := {[ 1%Z := oldTrack ]};
     localSSRCs := {[ 1%Z := Some ssrcInfo ]};
     _addedStreams := [7%Z];
     isSimulcastOn := false;
     senderCalls := [] |}.

Definition tpcUtils : TPCUtils := constructor chromium peerconnection bitrates.

Definition source (n : N) (a v : string) : Source :=
  {| source_id := n; attribute := Some a; value := Some v |}.

Definition section (kind : string) (l : list Source) (gs : list SsrcGroup) : MLine :=
  {| type := kind; ssrcs := l; ssrcGroups := gs; rids := None;
     simulcast := None; simulcast_03 := None; other_lines := [] |}.

Definition fid (ms : string) : SsrcGroup := {| semantics := "FID"; group_ssrcs := ms |}.

Definition audioSection : MLine := section "audio" [source 5 "cname" "a"] [].

(** The section of the specification's example: the retransmission source
    20 is listed before the primary source 10. *)
Definition swappedSection : MLine :=
  section "video" [source 20 "cname" "rtx"; source 10 "cname" "primary"] [fid "10 20"].

(** A section in the order of its only grouping, two lines per source. *)
Definition orderedSection : MLine :=
  section "video"
    [source 10 "cname" "c"; source 10 "msid" "m"; source 20 "cname" "c";
     source 20 "msid" "m"]
    [fid "10 20"].

(** A simulcast section: two retransmission pairs, each in order. *)
Definition twoPairsSection : MLine :=
  section "video"
    [source 10 "cname" "c"; source 20 "cname" "c"; source 30 "cname" "c";
     source 40 "cname" "c"]
    [fid "10 20"; fid "30 40"].

Definition parsedOf (l : list MLine) : ParsedSdp :=
  {| session_lines := ["v=0"%string]; media := l |}.

(** A section that already has the receive identifiers and the simulcast
    attribute. *)
Definition advertising (kind : string) : MLine :=
  {| type := kind; ssrcs := []; ssrcGroups := [];
     rids := Some receive_rids;
     simulcast := None;
     simulcast_03 := Some {| simulcast_value := "recv rid=1;2;3" |};
     other_lines := [] |}.

Definition plainVideo : MLine := section "video" [] [].

(** A codec that produces one fixed parsed description and one fixed
    text; enough to run the rewriters on. *)
Definition parseTo (p : ParsedSdp) : string -> ParsedSdp := fun _ => p.
Definition writeText : ParsedSdp -> string := fun _ => "v=0"%string.

Definition offer : RTCSessionDescription := {| desc_type := "offer"; sdp := "v=0" |}.

End Samples.

Module EncodingSamples.

Definition layer (scale : float) : Encoding :=
  {| active := Some true; maxBitrate := Some 100000%Z; rid := None;
     scaleResolutionDownBy := Some scale |}.

(** What a browser reports when it has collapsed the three layers. *)
Definition collapsed : RTCRtpParameters :=
  {| encodings := Some [layer 1.0; layer 1.0; layer 1.0] |}.

(** Two layers whose downscale factors differ. *)
Definition distinct : RTCRtpParameters :=
  {| encodings := Some [layer 1.0; layer 2.0] |}.

End EncodingSamples.

(** ** The remaining operations *)

(** *** Adding a track for the first time *)

(** The [init] dictionary handed to [addTransceiver]. *)
Record RTCRtpTransceiverInit : Type := {
  init_direction : TransceiverDirection;
  init_streams : list (option MediaStream);
  init_sendEncodings : list Encoding
}.

(** The one call [addTrack] makes on the browser's peer connection. *)
Inductive PeerConnectionCall : Type :=
  | CallAddTransceiver (track : option MediaStreamTrack) (init : RTCRtpTransceiverInit)
  | CallAddTrack (track : option MediaStreamTrack).

Definition addTrack (browser : Browser) (this : TPCUtils)
    (localTrack : JitsiLocalTrack) (isInitiator : bool) : PeerConnectionCall :=
  let track := getTrack localTrack in
  if isInitiator then
    let sendEncodings :=
      if negb (isFirefox browser) then _getStreamEncodings this localTrack else [] in
    CallAddTransceiver track
      {| init_direction := SENDRECV;
         init_streams := [getOriginalStream localTrack];
         init_sendEncodings := sendEncodings |}
  else CallAddTrack track.

(** *** Height constraints of the simulcast layers *)



(** *** Enabling and suspending the transfer of a media kind *)

(** Modelled from the spec: [pc.getLocalTracks(mediaType)] is a method of the
    peer connection, outside this file; it gives the local tracks of the
    given kind among those held in the table of tracks by id. The code reads
    its length only. *)
Definition getLocalTracks (p : TraceablePeerConnection) (mediaType : MediaType)
    : list JitsiLocalTrack :=
  List.filter (fun t => bool_decide (getType t = mediaType))
              (map snd (map_to_list (localTracks p))).

(** The direction written on the [idx]-th transceiver of the kind. *)
Definition transfer_direction (active hasLocalTracks : bool) (idx : nat)
    : TransceiverDirection :=
  if active then
    if Nat.eqb idx 0 && hasLocalTracks then SENDRECV else RECVONLY
  else INACTIVE.

(** The [forEach] over the transceivers kept by the [filter]: [idx] counts
    the transceivers of the kind met so far; the others are not visited. *)
Fixpoint transfer_directions (mediaType : MediaType) (active hasLocalTracks : bool)
    (idx : nat) (ts : list RTCRtpTransceiver) : list RTCRtpTransceiver :=
  match ts with
  | [] => []
  | t :: rest =>
      if receives mediaType t then
        set_direction t (transfer_direction active hasLocalTracks idx)
        :: transfer_directions mediaType active hasLocalTracks (S idx) rest
      else t :: transfer_directions mediaType active hasLocalTracks idx rest
  end.

Definition setMediaTransferActive (this : TPCUtils) (mediaType : MediaType)
    (active : bool) : TPCUtils :=
  let localTracks := getLocalTracks (pc this) mediaType in
  with_pc this
    (set_transceivers (pc this)
       (transfer_directions mediaType active
          (negb (Nat.eqb (length localTracks) 0)) 0 (transceivers (pc this)))).

Definition setAudioTransferActive (this : TPCUtils) (active : bool) : TPCUtils :=
  setMediaTransferActive this AUDIO active.

Definition setVideoTransferActive (this : TPCUtils) (active : bool) : TPCUtils :=
  setMediaTransferActive this VIDEO active.

(** ** Further notions used by the properties *)

(** [x] at position [i] is the first element of [l] that passes [p]. *)
Definition first_match {A : Type} (p : A -> bool) (l : list A) (i : nat) (x : A) : Prop :=
  l !! i = Some x /\ p x = true
  /\ forall j y, (j < i)%nat -> l !! j = Some y -> p y = false.

(** The three bookkeeping tables of two connections are the same. *)
Definition same_tables (p q : TraceablePeerConnection) : Prop :=
  localTracks p = localTracks q
  /\ localSSRCs p = localSSRCs q
  /\ _addedStreams p = _addedStreams q.

(** The track carried by each sender, position by position. *)
Definition sender_tracks (p : TraceablePeerConnection) : list (option MediaStreamTrack) :=
  map (fun t => sender_track (sender t)) (transceivers p).

(** The receiver, position by position. *)
Definition receivers (p : TraceablePeerConnection) : list RTCRtpReceiver :=
  map receiver (transceivers p).

(** The direction of each transceiver, position by position. *)
Definition directions (p : TraceablePeerConnection) : list TransceiverDirection :=
  map direction (transceivers p).

(** What no operation on tracks writes: the simulcast mode of the session,
    the bitrates and the layer configuration. *)
Definition same_settings (this this' : TPCUtils) : Prop :=
  isSimulcastOn (pc this) = isSimulcastOn (pc this')
  /\ videoBitrates this = videoBitrates this'
  /\ localStreamEncodingsConfig this = localStreamEncodingsConfig this'.

(** From [this] to [this'] the tables, the settings and the receivers have
    been kept. *)
Definition keeps_bookkeeping (this this' : TPCUtils) : Prop :=
  same_tables (pc this') (pc this)
  /\ same_settings this' this
  /\ receivers (pc this') = receivers (pc this).

(** The downscale factor and the bitrate ceiling of a layer. *)
Definition layer_quality (e : Encoding) : option float * option Z :=
  (scaleResolutionDownBy e, maxBitrate e).

(** An encoding with its downscale factor left out. *)
Definition without_scale (e : Encoding) : option bool * option Z * option string :=
  (active e, maxBitrate e, rid e).

(** A section with its receive identifiers and simulcast attributes left
    out. *)
Definition without_simulcast (m : MLine)
    : string * list Source * list SsrcGroup * list string :=
  (type m, ssrcs m, ssrcGroups m, other_lines m).

(** A section with its source descriptors left out. *)
Definition without_sources (m : MLine)
    : string * list SsrcGroup * option (list Rid) * option Simulcast
      * option Simulcast03 * list string :=
  (type m, ssrcGroups m, rids m, simulcast m, simulcast_03 m, other_lines m).

(** The stripping of every video section of a list. *)
Definition strip_videos (l : list MLine) : list MLine :=
  map (fun m => if is_video m then strip_simulcast m else m) l.

(** The test made on the first video section: it has receive identifiers
    and a simulcast attribute of either form. *)
Definition advertisesb (m : MLine) : bool :=
  bool_decide (is_Some (rids m))
  && (bool_decide (is_Some (simulcast_03 m)) || bool_decide (is_Some (simulcast m))).

(** The first video section advertises simulcast reception. *)
Definition advertises (m : MLine) : Prop :=
  is_Some (rids m) /\ (is_Some (simulcast_03 m) \/ is_Some (simulcast m)).

Module MoreSamples.

Local Open Scope Z_scope.

Definition firefox : Browser :=
  {| isFirefox := true;
     isVersionGreaterThan71 := true;
     isWebKitBased := false;
     isChromiumBased := false;
     doesVideoMuteByStreamRemove := false;
     usesSdpMungingForSimulcast := false |}.

Definition audioTransceiver : RTCRtpTransceiver :=
  {| receiver := {| receiver_track := Some Samples.remote_audio |};
     sender := {| sender_track := None;
                  sender_parameters := {| encodings := None |} |};
     direction := RECVONLY |}.

(** A video transceiver whose sender reports one encoding. *)
Definition negotiatedTransceiver : RTCRtpTransceiver :=
  {| receiver := {| receiver_track := Some Samples.remote_video |};
     sender := {| sender_track := Some Samples.camera;
                  sender_parameters :=
                    {| encodings := Some [EncodingSamples.layer 1.0] |} |};
     direction := SENDRECV |}.

(** A connection with an audio transceiver that sends nothing and a video
    transceiver that sends [Samples.oldTrack]. *)
Definition connection : TraceablePeerConnection :=
  {| transceivers := [audioTransceiver; negotiatedTransceiver];
     localTracks := {[ 1 := Samples.oldTrack ]};
     localSSRCs := {[ 1 := Some Samples.ssrcInfo ]};
     _addedStreams := [7];
     isSimulcastOn := true;
     senderCalls := [] |}.

Definition utils : TPCUtils := constructor Samples.chromium connection Samples.bitrates.

(** A video transceiver that sends nothing and is inactive. *)
Definition idleVideoTransceiver : RTCRtpTransceiver :=
  {| receiver := {| receiver_track := Some Samples.remote_video |};
     sender := {| sender_track := None;
                  sender_parameters := {| encodings := None |} |};
     direction := INACTIVE |}.

(** A connection with an audio transceiver and two video transceivers, the
    first of them inactive, and one local video track. *)
Definition twoVideos : TPCUtils :=
  constructor Samples.chromium
    {| transceivers := [audioTransceiver; idleVideoTransceiver; negotiatedTransceiver];
       localTracks := {[ 1 := Samples.oldTrack ]};
       localSSRCs := {[ 1 := Some Samples.ssrcInfo ]};
       _addedStreams := [7];
       isSimulcastOn := true;
       senderCalls := [] |}
    Samples.bitrates.

(** A browser that refuses every call on a sender. *)
Definition refusing : Transport :=
  {| replaceTrackAnswer := fun _ _ => Some (SenderError "InvalidStateError");
     setParametersAnswer := fun _ _ => Some (SenderError "InvalidStateError") |}.

End MoreSamples.

(** * Properties *)

(** ** Strict equality of numbers *)

(** Two numbers that are each [===] to a third one are [===] to each other,
    read on their IEEE values. ([===] is not reflexive: NaN.) *)
Lemma SFeqb_common (a b c : spec_float) :
  SFeqb a c = true -> SFeqb b c = true -> SFeqb a b = true.
Proof.
  unfold SFeqb.
  destruct a as [sa | sa | | sa ma ea], c as [sc | sc | | sc mc ec];
    simpl; try discriminate;
    destruct b as [sb | sb | | sb mb eb]; simpl; try discriminate; try reflexivity;
    try (destruct sa, sc; try discriminate; destruct sb; try discriminate;
         reflexivity).
  destruct sa, sc; try discriminate; destruct sb; try discriminate.
  all: destruct (Z.compare ea ec) eqn:E1; try discriminate;
       destruct (Z.compare eb ec) eqn:E2; try discriminate;
       apply Z.compare_eq in E1; apply Z.compare_eq in E2; subst;
       rewrite Z.compare_refl;
       fold (Pos.compare ma mc); fold (Pos.compare mb mc); fold (Pos.compare ma mb);
       destruct (Pos.compare ma mc) eqn:E3; try discriminate;
       destruct (Pos.compare mb mc) eqn:E4; try discriminate;
       apply Pos.compare_eq in E3; apply Pos.compare_eq in E4; subst;
       rewrite Pos.compare_refl; reflexivity.
Qed.

Lemma strict_eq_common (x y z : float) :
  PrimFloat.eqb x z = true -> PrimFloat.eqb y z = true -> PrimFloat.eqb x y = true.
Proof. rewrite !FloatAxioms.eqb_spec. apply SFeqb_common. Qed.

(** ** Stream encodings *)

(** C7. Whatever the layer configuration holds: with simulcast disabled on
    the session, [_getStreamEncodings] gives for a video track exactly one
    entry, [{ active: true, maxBitrate: videoBitrates.high }], the single
    ceiling used without simulcast; and for an audio track it gives the
    single entry [{ active: true }], with simulcast disabled or enabled. *)
Theorem getStreamEncodings_without_simulcast (this : TPCUtils)
    (localTrack : JitsiLocalTrack) :
  (isSimulcastOn (pc this) = false ->
   getType localTrack = VIDEO ->
   _getStreamEncodings this localTrack
   = [ {| active := Some true;
          maxBitrate := Some (high (videoBitrates this));
          rid := None;
          scaleResolutionDownBy := None |} ])
  /\ (getType localTrack = AUDIO ->
      _getStreamEncodings this localTrack
      = [ {| active := Some true;
             maxBitrate := None;
             rid := None;
             scaleResolutionDownBy := None |} ]).
Proof.
  unfold _getStreamEncodings, isVideoTrack. split.
  - intros Hoff Hvideo. rewrite Hoff, Hvideo. reflexivity.
  - intros Haudio. rewrite Haudio. simpl. now rewrite andb_false_r.
Qed.

Lemma getStreamEncodings_without_simulcast_witness :
  isSimulcastOn (pc MoreSamples.utils) = true
  /\ _getStreamEncodings Samples.tpcUtils Samples.oldTrack =
    [ {| active := Some true; maxBitrate := Some 1500000%Z; rid := None;
         scaleResolutionDownBy := None |} ]
  /\ _getStreamEncodings MoreSamples.utils Samples.micTrack =
    [ {| active := Some true; maxBitrate := None; rid := None;
         scaleResolutionDownBy := None |} ].
Proof.
  split; [reflexivity |]. split.
  - apply (proj1 (getStreamEncodings_without_simulcast Samples.tpcUtils Samples.oldTrack));
      reflexivity.
  - apply (proj2 (getStreamEncodings_without_simulcast MoreSamples.utils Samples.micTrack)).
    reflexivity.
Defined.

(** ** Reconciling resolutions *)

Lemma copy_resolutions_again (config encs : list Encoding) :
  (copy_resolutions config (copy_resolutions config encs).1).1
  = (copy_resolutions config encs).1.
Proof.
  revert config. induction encs as [| e rest IH]; intros config; [reflexivity |].
  destruct config as [| c config']; [reflexivity |].
  simpl. specialize (IH config').
  destruct (copy_resolutions config' rest) as [rest' r] eqn:E. simpl in *.
  destruct (copy_resolutions config' rest') as [rest'' r'] eqn:E'. simpl in *.
  now subst.
Qed.

Lemma allEqualEncodings_pairwise (encs : list Encoding) (e1 e2 : Encoding) :
  allEqualEncodings encs = true -> In e1 encs -> In e2 encs ->
  strict_eq_scale (scaleResolutionDownBy e1) (scaleResolutionDownBy e2) = true.
Proof.
  unfold allEqualEncodings. intros Hall H1 H2.
  rewrite forallb_forall in Hall.
  pose proof (Hall e1 H1) as A1. pose proof (Hall e2 H2) as A2.
  destruct (scaleResolutionDownBy e1) as [x |]; [| discriminate].
  destruct (scaleResolutionDownBy e2) as [y |]; [| discriminate].
  destruct (head encs ≫= scaleResolutionDownBy) as [z |]; [| discriminate].
  simpl. now apply strict_eq_common with z.
Qed.

(** C8. Whatever parameters the browser reports, [updateEncodingsResolution]
    applied to the parameters it has left gives these parameters again;
    and it leaves parameters as they are when two of their encodings have
    downscale factors that are not [===]. *)
Theorem updateEncodingsResolution_idempotent (browser : Browser) (this : TPCUtils)
    (parameters : RTCRtpParameters) :
  let once := (updateEncodingsResolution browser this parameters).1 in
  (updateEncodingsResolution browser this once).1 = once
  /\ (forall encs e1 e2,
        encodings parameters = Some encs -> In e1 encs -> In e2 encs ->
        strict_eq_scale (scaleResolutionDownBy e1) (scaleResolutionDownBy e2) = false ->
        updateEncodingsResolution browser this parameters = (parameters, Return ())).
Proof.
  simpl. split.
  - unfold updateEncodingsResolution.
    destruct (isWebKitBased browser); [| reflexivity].
    destruct (encodings parameters) as [encs |] eqn:E;
      [| simpl; rewrite E; reflexivity].
    destruct (allEqualEncodings encs) eqn:A.
    + pose proof (copy_resolutions_again (localStreamEncodingsConfig this) encs) as Hagain.
      destruct (copy_resolutions (localStreamEncodingsConfig this) encs) as [encs' r].
      simpl in *.
      destruct (allEqualEncodings encs'); [| reflexivity].
      destruct (copy_resolutions (localStreamEncodingsConfig this) encs') as [encs'' r'].
      simpl in *. now subst.
    + simpl. rewrite E, A. reflexivity.
  - intros encs e1 e2 E H1 H2 Hdiff. unfold updateEncodingsResolution.
    destruct (isWebKitBased browser); [| reflexivity]. rewrite E.
    destruct (allEqualEncodings encs) eqn:A; [| reflexivity].
    rewrite (allEqualEncodings_pairwise encs e1 e2 A H1 H2) in Hdiff. discriminate.
Qed.

Lemma updateEncodingsResolution_idempotent_witness :
  updateEncodingsResolution Samples.chromium Samples.tpcUtils EncodingSamples.distinct
  = (EncodingSamples.distinct, Return ()).
Proof.
  apply (proj2 (updateEncodingsResolution_idempotent Samples.chromium Samples.tpcUtils
                  EncodingSamples.distinct)
           _ (EncodingSamples.layer 1.0) (EncodingSamples.layer 2.0) eq_refl).
  - left. reflexivity.
  - right. left. reflexivity.
  - reflexivity.
Defined.

(** On the collapsed report of a WebKit browser the configured factors are
    written, and a second call changes nothing more. *)
Example updateEncodingsResolution_collapsed :
  let once := (updateEncodingsResolution Samples.chromium Samples.tpcUtils
                 EncodingSamples.collapsed).1 in
  encodings once
  = Some [EncodingSamples.layer 4.0; EncodingSamples.layer 2.0; EncodingSamples.layer 1.0]
  /\ updateEncodingsResolution Samples.chromium Samples.tpcUtils once = (once, Return ()).
Proof. split; reflexivity. Qed.

(** ** Transceiver lookup *)

Lemma js_find_none {A : Type} (p : A -> bool) (l : list A) :
  Forall (fun x => p x = false) l -> js_find p l = None.
Proof.
  induction 1 as [| x r Hx _ IH]; simpl; [reflexivity |].
  now rewrite Hx, IH.
Qed.

Lemma js_find_some {A : Type} (p : A -> bool) (l : list A) (i : nat) (x : A) :
  js_find p l = Some (i, x) -> l !! i = Some x /\ p x = true.
Proof.
  revert i. induction l as [| y r IH]; intros i; simpl; [discriminate |].
  destruct (p y) eqn:Py.
  - intros [= <- <-]. now split.
  - destruct (js_find p r) as [[j z] |]; [| discriminate].
    intros [= <- <-]. now apply IH.
Qed.

(** ** Unmuting *)

(** C4. When no transceiver of the connection receives the kind of the
    track, [addTrackUnmute] returns a promise rejected with the error
    [RTCRtpTransceiver for <kind> not found], and the connection is left as
    it was: tracks by id, synchronization sources by id, added streams, and
    no call made on any sender. *)
Theorem addTrackUnmute_without_transceiver (browser : Browser) (transport : Transport)
    (this : TPCUtils) (localTrack : JitsiLocalTrack) :
  Forall (fun t => receives (getType localTrack) t = false) (transceivers (pc this)) ->
  addTrackUnmute browser transport this localTrack
  = (this, Rejected (Error (not_found_message (getType localTrack)))).
Proof.
  intros Hnone. unfold addTrackUnmute, _findTransceiver.
  now rewrite (js_find_none _ _ Hnone).
Qed.

Lemma addTrackUnmute_without_transceiver_witness :
  addTrackUnmute Samples.chromium Samples.accepting Samples.tpcUtils Samples.micTrack
  = (Samples.tpcUtils, Rejected (Error "RTCRtpTransceiver for audio not found")).
Proof.
  apply (addTrackUnmute_without_transceiver Samples.chromium Samples.accepting
           Samples.tpcUtils Samples.micTrack).
  repeat constructor.
Defined.

(** ** Setting the encodings *)

(** C10. When the lookup finds no transceiver for the track, [setEncodings]
    returns a fulfilled promise, not a rejection for the missing
    transceiver; the connection is unchanged and no [setParameters] call is
    made on a sender. *)
Theorem setEncodings_without_transceiver (browser : Browser) (transport : Transport)
    (this : TPCUtils) (track : JitsiLocalTrack) :
  _findTransceiver browser this (getType track) (Some track) = None ->
  setEncodings browser transport this track = (this, Fulfilled)
  /\ senderCalls (pc (setEncodings browser transport this track).1)
     = senderCalls (pc this).
Proof.
  intros Hnone. unfold setEncodings. rewrite Hnone. simpl. now split.
Qed.

Lemma setEncodings_without_transceiver_witness :
  setEncodings Samples.chromium Samples.accepting Samples.tpcUtils Samples.micTrack
  = (Samples.tpcUtils, Fulfilled).
Proof.
  apply (setEncodings_without_transceiver Samples.chromium Samples.accepting
           Samples.tpcUtils Samples.micTrack).
  reflexivity.
Defined.

(** ** Replacing a track *)

(** C5. When both tracks are given and the new one has no stream,
    [replaceTrack] returns a fulfilled promise at once; in the table of
    tracks by id the entry of the old track has been deleted and the entry
    of the new track set, and nothing else has changed: not the
    synchronization sources, not the added streams, not a transceiver (so
    the sender still carries what it carried), and no call has been made on
    a sender. *)
Theorem replaceTrack_without_stream (browser : Browser) (transport : Transport)
    (this : TPCUtils) (oldTrack newTrack : JitsiLocalTrack) :
  getOriginalStream newTrack = None ->
  let r := replaceTrack browser transport this (Some oldTrack) (Some newTrack) in
  r.2 = Fulfilled
  /\ localTracks (pc r.1)
     = <[rtcId newTrack := newTrack]> (delete (rtcId oldTrack) (localTracks (pc this)))
  /\ localSSRCs (pc r.1) = localSSRCs (pc this)
  /\ _addedStreams (pc r.1) = _addedStreams (pc this)
  /\ transceivers (pc r.1) = transceivers (pc this)
  /\ senderCalls (pc r.1) = senderCalls (pc this)
  /\ isSimulcastOn (pc r.1) = isSimulcastOn (pc this)
  /\ videoBitrates r.1 = videoBitrates this
  /\ localStreamEncodingsConfig r.1 = localStreamEncodingsConfig this.
Proof.
  intros Hstream. unfold replaceTrack. rewrite Hstream. simpl.
  repeat split; reflexivity.
Qed.

Lemma replaceTrack_without_stream_witness :
  let r := replaceTrack Samples.chromium Samples.accepting Samples.tpcUtils
             (Some Samples.oldTrack) (Some Samples.mutedTrack) in
  r.2 = Fulfilled /\ transceivers (pc r.1) = [Samples.videoTransceiver].
Proof.
  pose proof (replaceTrack_without_stream Samples.chromium Samples.accepting
                Samples.tpcUtils Samples.oldTrack Samples.mutedTrack eq_refl) as H.
  simpl in H. destruct H as (H1 & _ & _ & _ & H5 & _). split; assumption.
Defined.

(** The old track's entries are read and deleted under its id, and the new
    track's entries written under its own: what the two maps hold
    afterwards. *)
Lemma lookup_after_swap {V : Type} (m : gmap Z V) (old new : Z) (v : V) :
  <[new := v]> (delete old m) !! new = Some v
  /\ (old <> new -> <[new := v]> (delete old m) !! old = None).
Proof.
  split.
  - apply lookup_insert_eq.
  - intros Hne. rewrite lookup_insert_ne by congruence. apply lookup_delete_eq.
Qed.

(** C1, as the code has it. After a call with both tracks, the new one with
    a stream, whose promise is fulfilled: the entry of the old track is
    deleted from the tracks by id and from the synchronization sources by
    id, the new track is entered under its id in both, with the
    synchronization source the old track had before the call; and the
    added streams are the former ones without the stream of the new track,
    followed by that stream. The stream of the old track is not looked
    for. *)
Theorem replaceTrack_bookkeeping_after_success (browser : Browser)
    (transport : Transport) (this : TPCUtils) (oldTrack newTrack : JitsiLocalTrack)
    (stream : MediaStream) :
  getOriginalStream newTrack = Some stream ->
  let r := replaceTrack browser transport this (Some oldTrack) (Some newTrack) in
  r.2 = Fulfilled ->
  localTracks (pc r.1)
  = <[rtcId newTrack := newTrack]> (delete (rtcId oldTrack) (localTracks (pc this)))
  /\ localSSRCs (pc r.1)
     = <[rtcId newTrack := map_get (localSSRCs (pc this)) (rtcId oldTrack)]>
         (delete (rtcId oldTrack) (localSSRCs (pc this)))
  /\ localTracks (pc r.1) !! rtcId newTrack = Some newTrack
  /\ map_get (localSSRCs (pc r.1)) (rtcId newTrack)
     = map_get (localSSRCs (pc this)) (rtcId oldTrack)
  /\ (rtcId oldTrack <> rtcId newTrack ->
      localTracks (pc r.1) !! rtcId oldTrack = None
      /\ localSSRCs (pc r.1) !! rtcId oldTrack = None)
  /\ _addedStreams (pc r.1)
     = List.filter (fun s => negb (Z.eqb s stream)) (_addedStreams (pc this)) ++ [stream].
Proof.
  intros Hstream. unfold replaceTrack. rewrite Hstream.
  destruct (_findTransceiver browser this (getType newTrack) (Some oldTrack))
    as [[i t] |]; simpl; [| discriminate].
  unfold sender_replaceTrack.
  destruct (replaceTrackAnswer transport i (getTrack newTrack)); simpl; [discriminate |].
  intros _.
  repeat split.
  - apply lookup_after_swap.
  - unfold map_get at 1. now rewrite (proj1 (lookup_after_swap _ _ _ _)).
  - now apply lookup_after_swap.
  - now apply lookup_after_swap.
Qed.

Lemma replaceTrack_bookkeeping_after_success_witness :
  let r := replaceTrack Samples.chromium Samples.accepting Samples.tpcUtils
             (Some Samples.oldTrack) (Some Samples.newTrack) in
  map_get (localSSRCs (pc r.1)) 2 = Some Samples.ssrcInfo
  /\ localTracks (pc r.1) !! 1%Z = None.
Proof.
  pose proof (replaceTrack_bookkeeping_after_success Samples.chromium Samples.accepting
                Samples.tpcUtils Samples.oldTrack Samples.newTrack 8%Z eq_refl eq_refl)
    as H.
  destruct H as (_ & _ & _ & H4 & H5 & _). split.
  - exact H4.
  - apply H5. discriminate.
Defined.

(** C1, as the claim has it, fails: here the stream [7] of the old track is
    among the added streams before the call and still is after it. *)
Lemma replaceTrack_keeps_old_stream :
  let r := replaceTrack Samples.chromium Samples.accepting Samples.tpcUtils
             (Some Samples.oldTrack) (Some Samples.newTrack) in
  r.2 = Fulfilled
  /\ getOriginalStream Samples.oldTrack = Some 7%Z
  /\ getOriginalStream Samples.newTrack = Some 8%Z
  /\ _addedStreams (pc r.1) = [7%Z; 8%Z]
  /\ In 7%Z (_addedStreams (pc r.1)).
Proof. simpl. repeat split. now left. Qed.

(** ** Ordering the sources of a section *)

Lemma fold_left_concat {A B : Type} (f : B -> list A) (l : list B) (init : list A) :
  fold_left (fun acc x => acc ++ f x) l init = init ++ concat (map f l).
Proof.
  revert init. induction l as [| x r IH]; intros init; simpl.
  - now rewrite app_nil_r.
  - rewrite IH. now rewrite <- app_assoc.
Qed.

(** The rebuilt list is the concatenation, member after member, of the
    descriptors of each member. *)
Lemma reorder_mLine_grouped (mLine : MLine) (group : SsrcGroup) (groups : list SsrcGroup) :
  type mLine <> mediaTypeString AUDIO ->
  ssrcGroups mLine = group :: groups ->
  reorder_mLine mLine
  = set_ssrcs mLine (concat (map (descriptors_of mLine) (members group))).
Proof.
  intros Hkind Hgroups. unfold reorder_mLine.
  destruct (String.eqb_spec (type mLine) (mediaTypeString AUDIO)); [contradiction |].
  rewrite Hgroups. f_equal.
  exact (fold_left_concat (descriptors_of mLine) (members group) []).
Qed.

Lemma reorder_mLine_skipped (mLine : MLine) :
  type mLine = mediaTypeString AUDIO \/ ssrcGroups mLine = [] ->
  reorder_mLine mLine = mLine.
Proof.
  intros [Hkind | Hnone]; unfold reorder_mLine.
  - rewrite Hkind. reflexivity.
  - rewrite Hnone. now destruct (String.eqb _ _).
Qed.

(** C2. [ensureCorrectOrderOfSsrcs] returns a description of the same type
    whose text is written from the parsed description with its sections
    rewritten, position by position: an audio section and a section
    without grouping are unchanged; any other section keeps everything but
    its source descriptors, which become the concatenation, for each member
    id of the first grouping in its declared order, of the descriptors with
    that id. A section with sources [B (id 20); A (id 10)] and a first
    grouping [FID 10 20] is written with the sources [A; B]. *)
Theorem ensureCorrectOrderOfSsrcs_rebuilds (parse : string -> ParsedSdp)
    (write : ParsedSdp -> string) (description : RTCSessionDescription) :
  let parsedSdp := parse (sdp description) in
  let rewritten := ensureCorrectOrderOfSsrcs_parsed parsedSdp in
  ensureCorrectOrderOfSsrcs parse write description
  = {| desc_type := desc_type description; sdp := write rewritten |}
  /\ session_lines rewritten = session_lines parsedSdp
  /\ Forall2
       (fun mLine mLine' =>
          (type mLine = mediaTypeString AUDIO \/ ssrcGroups mLine = [] ->
           mLine' = mLine)
          /\ (forall group groups,
                type mLine <> mediaTypeString AUDIO ->
                ssrcGroups mLine = group :: groups ->
                ssrcs mLine'
                = concat (map (descriptors_of mLine) (members group))
                /\ without_sources mLine' = without_sources mLine))
       (media parsedSdp) (media rewritten)
  /\ (forall i mLine A B groups,
        media parsedSdp !! i = Some mLine ->
        type mLine <> mediaTypeString AUDIO ->
        source_id A = 10%N -> source_id B = 20%N ->
        ssrcs mLine = [B; A] ->
        ssrcGroups mLine = {| semantics := "FID"; group_ssrcs := "10 20" |} :: groups ->
        ssrcs <$> media rewritten !! i = Some [A; B]).
Proof.
  simpl. split; [reflexivity |]. split; [reflexivity |]. split.
  - induction (media (parse (sdp description))) as [| mLine rest IH]; simpl;
      constructor; [| exact IH].
    split; [apply reorder_mLine_skipped |].
    intros group groups Hkind Hgroups.
    rewrite (reorder_mLine_grouped mLine group groups Hkind Hgroups).
    split; [reflexivity |]. unfold without_sources. simpl. now rewrite Hgroups.
  - intros i mLine A B groups Hat Hkind HA HB Hsources Hgroups.
    rewrite list_lookup_fmap_Some_2 with (x := mLine) by exact Hat. simpl.
    rewrite (reorder_mLine_grouped mLine _ groups Hkind Hgroups).
    unfold descriptors_of, has_key. rewrite Hsources. simpl. rewrite HA, HB. reflexivity.
Qed.

Lemma ensureCorrectOrderOfSsrcs_rebuilds_witness :
  let parsed := Samples.parsedOf [Samples.audioSection; Samples.swappedSection] in
  ssrcs <$> media (ensureCorrectOrderOfSsrcs_parsed parsed) !! 1%nat
  = Some [Samples.source 10 "cname" "primary"; Samples.source 20 "cname" "rtx"]
  /\ ssrcs Samples.swappedSection
     = [Samples.source 20 "cname" "rtx"; Samples.source 10 "cname" "primary"].
Proof.
  pose proof (ensureCorrectOrderOfSsrcs_rebuilds
                (Samples.parseTo
                   (Samples.parsedOf [Samples.audioSection; Samples.swappedSection]))
                Samples.writeText Samples.offer) as H.
  simpl in H. destruct H as (_ & _ & _ & Hexample). split; [| reflexivity].
  apply (Hexample 1%nat Samples.swappedSection _ _ []); try reflexivity. discriminate.
Defined.

(** *** Sections already in order *)

Lemma drop_block_cases (m : string) (l : list Source) (x : Source) :
  In x l -> has_key m x = true \/ In x (drop_block m l).
Proof.
  induction l as [| k r IH]; simpl; [tauto |].
  destruct (has_key m k) eqn:K.
  - intros [<- | Hin]; [now left | now apply IH].
  - intros Hin. right. exact Hin.
Qed.

Lemma in_member_order_keys (ms : list string) :
  forall l x, in_member_order ms l = true -> In x l -> In (toString (source_id x)) ms.
Proof.
  induction ms as [| m ms' IH]; intros l x Horder Hin; simpl in *.
  - destruct l; [destruct Hin | discriminate].
  - destruct (drop_block_cases m l x Hin) as [K | Hrest].
    + left. unfold has_key in K. symmetry. now apply String.eqb_eq.
    + right. now apply (IH (drop_block m l)).
Qed.

Lemma filter_none {A : Type} (p : A -> bool) (l : list A) :
  (forall x, In x l -> p x = false) -> List.filter p l = [].
Proof.
  induction l as [| k r IH]; intros Hall; simpl; [reflexivity |].
  rewrite (Hall k) by now left. apply IH. intros x Hx. apply Hall. now right.
Qed.

Lemma filter_block_split (m : string) (l : list Source) :
  (forall x, In x (drop_block m l) -> has_key m x = false) ->
  List.filter (has_key m) l ++ drop_block m l = l.
Proof.
  induction l as [| k r IH]; simpl; [reflexivity |].
  destruct (has_key m k) eqn:K; intros Hrest.
  - simpl. f_equal. now apply IH.
  - rewrite (filter_none (has_key m) r).
    + reflexivity.
    + intros x Hx. apply Hrest. now right.
Qed.

Lemma filter_other_block (m m' : string) (l : list Source) :
  m' <> m ->
  List.filter (has_key m') l = List.filter (has_key m') (drop_block m l).
Proof.
  intros Hne. induction l as [| k r IH]; simpl; [reflexivity |].
  destruct (has_key m k) eqn:K; [| reflexivity].
  assert (has_key m' k = false) as ->; [| exact IH].
  unfold has_key in *. apply String.eqb_eq in K. apply String.eqb_neq. congruence.
Qed.

(** Descriptors that stand block after block in the order of pairwise
    distinct members are what the rebuilding produces. *)
Lemma rebuild_in_member_order (ms : list string) :
  forall l, List.NoDup ms -> in_member_order ms l = true ->
  concat (map (fun m => List.filter (has_key m) l) ms) = l.
Proof.
  induction ms as [| m ms' IH]; intros l Hnodup Horder; simpl in *.
  - destruct l; [reflexivity | discriminate].
  - apply NoDup_cons_iff in Hnodup as [Hfresh Hnodup].
    assert (map (fun m' => List.filter (has_key m') l) ms'
            = map (fun m' => List.filter (has_key m') (drop_block m l)) ms') as ->.
    { apply map_ext_in. intros m' Hin. apply filter_other_block. congruence. }
    rewrite (IH (drop_block m l) Hnodup Horder).
    apply filter_block_split. intros x Hx.
    unfold has_key. apply String.eqb_neq. intros Heq. apply Hfresh. rewrite <- Heq.
    now apply (in_member_order_keys ms' (drop_block m l)).
Qed.

Lemma reorder_mLine_in_order (mLine : MLine) :
  lists_first_grouping mLine -> reorder_mLine mLine = mLine.
Proof.
  intros [Haudio | Hgrouped]; [apply reorder_mLine_skipped; now left |].
  destruct (String.eqb_spec (type mLine) (mediaTypeString AUDIO)) as [Haudio | Hkind].
  { apply reorder_mLine_skipped. now left. }
  destruct (ssrcGroups mLine) as [| group groups] eqn:Hgroups.
  { apply reorder_mLine_skipped. now right. }
  destruct Hgrouped as [Hnodup Horder].
  rewrite (reorder_mLine_grouped mLine group groups Hkind Hgroups).
  unfold descriptors_of.
  rewrite (rebuild_in_member_order _ _ Hnodup Horder).
  destruct mLine; simpl in *. now rewrite Hgroups.
Qed.

(** C6, as the code has it. When every section of the parsed description is
    audio, or has no grouping, or lists exactly the descriptors of the
    pairwise distinct members of its first grouping, block after block in
    the declared order, the rewriting leaves the parsed description as it
    is: the text returned is the codec's writing of the parsed input, and
    it is the input text whenever the codec writes back what it parsed. *)
Theorem ensureCorrectOrderOfSsrcs_in_order (parse : string -> ParsedSdp)
    (write : ParsedSdp -> string) (description : RTCSessionDescription) :
  Forall lists_first_grouping (media (parse (sdp description))) ->
  ensureCorrectOrderOfSsrcs_parsed (parse (sdp description)) = parse (sdp description)
  /\ ensureCorrectOrderOfSsrcs parse write description
     = {| desc_type := desc_type description;
          sdp := write (parse (sdp description)) |}
  /\ (write (parse (sdp description)) = sdp description ->
      ensureCorrectOrderOfSsrcs parse write description = description).
Proof.
  intros Hall.
  assert (ensureCorrectOrderOfSsrcs_parsed (parse (sdp description))
          = parse (sdp description)) as Hsame.
  { unfold ensureCorrectOrderOfSsrcs_parsed, set_media.
    destruct (parse (sdp description)) as [lines sections]. simpl in *. f_equal.
    induction Hall as [| mLine rest Hm _ IH]; simpl; [reflexivity |].
    now rewrite (reorder_mLine_in_order mLine Hm), IH. }
  split; [exact Hsame |].
  unfold ensureCorrectOrderOfSsrcs. rewrite Hsame. split; [reflexivity |].
  intros ->. now destruct description.
Qed.

Lemma ensureCorrectOrderOfSsrcs_in_order_witness :
  ensureCorrectOrderOfSsrcs
    (Samples.parseTo (Samples.parsedOf [Samples.audioSection; Samples.orderedSection]))
    Samples.writeText Samples.offer
  = Samples.offer.
Proof.
  apply (ensureCorrectOrderOfSsrcs_in_order
           (Samples.parseTo (Samples.parsedOf [Samples.audioSection; Samples.orderedSection]))
           Samples.writeText Samples.offer).
  - constructor; [left; reflexivity |]. constructor; [| constructor].
    right. simpl. split; [| reflexivity].
    repeat constructor; simpl; intuition discriminate.
  - reflexivity.
Defined.

(** C6, as the claim has it, fails: the section below has two retransmission
    pairs, each with its primary source immediately before its
    retransmission source, in the order declared by its grouping; the
    rewriting keeps the sources of the first grouping and drops the others.
    Whatever the codec, if it parses back what it writes, the text returned
    for the written form of this description is not that text. *)
Lemma ensureCorrectOrderOfSsrcs_drops_second_pair :
  let parsed := Samples.parsedOf [Samples.audioSection; Samples.twoPairsSection] in
  satisfies_ordering_invariant parsed = true
  /\ map ssrcs (media (ensureCorrectOrderOfSsrcs_parsed parsed))
     = [ [Samples.source 5 "cname" "a"];
         [Samples.source 10 "cname" "c"; Samples.source 20 "cname" "c"] ]
  /\ ensureCorrectOrderOfSsrcs_parsed parsed <> parsed
  /\ (forall parse write,
        (forall p, parse (write p) = p) ->
        ensureCorrectOrderOfSsrcs parse write {| desc_type := "offer"; sdp := write parsed |}
        <> {| desc_type := "offer"; sdp := write parsed |}).
Proof.
  simpl. split; [reflexivity |]. split; [reflexivity |].
  assert (ensureCorrectOrderOfSsrcs_parsed
            (Samples.parsedOf [Samples.audioSection; Samples.twoPairsSection])
          <> Samples.parsedOf [Samples.audioSection; Samples.twoPairsSection]) as Hne.
  { intros Heq. apply (f_equal (fun p => map (fun m => length (ssrcs m)) (media p))) in Heq.
    discriminate Heq. }
  split; [exact Hne |].
  intros parse write Hround Heq. apply Hne.
  apply (f_equal sdp) in Heq. unfold ensureCorrectOrderOfSsrcs in Heq. simpl in Heq.
  rewrite Hround in Heq. apply (f_equal parse) in Heq. now rewrite !Hround in Heq.
Qed.

(** ** Simulcast receive lines *)

Lemma findIndex_none {A : Type} (p : A -> bool) (l : list A) :
  Forall (fun x => p x = false) l -> findIndex p l = (-1)%Z.
Proof.
  induction 1 as [| x r Hx _ IH]; simpl; [reflexivity |].
  now rewrite Hx, IH.
Qed.

Lemma findIndex_range {A : Type} (p : A -> bool) (l : list A) :
  (-1 <= findIndex p l)%Z.
Proof.
  induction l as [| x r IH]; simpl; [lia |].
  destruct (p x); [lia |]. destruct (Z.ltb_spec (findIndex p r) 0); lia.
Qed.

(** The index found is the position of the first element that passes. *)
Lemma findIndex_first {A : Type} (p : A -> bool) (before : list A) (first : A)
    (after : list A) :
  Forall (fun x => p x = false) before -> p first = true ->
  findIndex p (before ++ first :: after) = Z.of_nat (length before).
Proof.
  intros Hbefore Hfirst. induction Hbefore as [| x r Hx _ IH]; simpl.
  - now rewrite Hfirst.
  - rewrite Hx, IH. destruct (Z.ltb_spec (Z.of_nat (length r)) 0); lia.
Qed.

Lemma js_index_first {A : Type} (before : list A) (first : A) (after : list A) :
  js_index (before ++ first :: after) (Z.of_nat (length before)) = Some first.
Proof.
  unfold js_index. destruct (Z.ltb_spec (Z.of_nat (length before)) 0); [lia |].
  rewrite Nat2Z.id. now rewrite list_lookup_middle.
Qed.

(** C9. With structured simulcast negotiation in use (no SDP munging), on a
    description whose parsed form has no video section
    [insertUnifiedPlanSimulcastReceive] does not return: the index of the
    first video section is [-1], no section stands there, and reading
    [rids] of it throws a [TypeError]. *)
Theorem insertUnifiedPlanSimulcastReceive_without_video (parse : string -> ParsedSdp)
    (write : ParsedSdp -> string) (browser : Browser) (desc : RTCSessionDescription) :
  usesSdpMungingForSimulcast browser = false ->
  Forall (fun mline => type mline <> mediaTypeString VIDEO) (media (parse (sdp desc))) ->
  insertUnifiedPlanSimulcastReceive parse write browser desc = Throw TypeError.
Proof.
  intros Hstructured Hnone.
  unfold insertUnifiedPlanSimulcastReceive, insertUnifiedPlanSimulcastReceive_parsed.
  rewrite Hstructured, (findIndex_none is_video).
  - reflexivity.
  - eapply Forall_impl; [exact Hnone |]. intros mline Hkind. simpl in Hkind.
    unfold is_video. now apply String.eqb_neq.
Qed.

Lemma insertUnifiedPlanSimulcastReceive_without_video_witness :
  insertUnifiedPlanSimulcastReceive
    (Samples.parseTo (Samples.parsedOf [Samples.audioSection])) Samples.writeText
    Samples.chromium Samples.offer
  = Throw TypeError.
Proof.
  apply (insertUnifiedPlanSimulcastReceive_without_video
           (Samples.parseTo (Samples.parsedOf [Samples.audioSection])) Samples.writeText
           Samples.chromium Samples.offer).
  - reflexivity.
  - constructor; [discriminate | constructor].
Defined.

Lemma filter_carries_none (l : list MLine) :
  Forall (fun m => carries_advertisement m = false) l ->
  List.filter carries_advertisement l = [].
Proof.
  intros Hall. apply filter_none. intros x Hx.
  rewrite Forall_forall in Hall. apply Hall. now apply list_elem_of_In.
Qed.

Lemma carries_strip (m : MLine) : carries_advertisement (strip_simulcast m) = false.
Proof. reflexivity. Qed.

Lemma imap_pointwise {A B : Type} (f : nat -> A -> B) (g : A -> B) (l : list A) :
  (forall i x, l !! i = Some x -> f i x = g x) -> imap f l = map g l.
Proof.
  revert f. induction l as [| y r IH]; intros f Hfg; simpl; [reflexivity |].
  f_equal.
  - now apply (Hfg 0%nat).
  - apply IH. intros i x Hx. now apply (Hfg (S i)).
Qed.

(** The stripping loop on a description cut at its first video section. *)
Lemma strip_other_videos (before : list MLine) (first : MLine) (after : list MLine) :
  Forall (fun m => is_video m = false) before ->
  imap (fun i mline =>
          if is_video mline && negb (Z.of_nat i =? Z.of_nat (length before))%Z
          then strip_simulcast mline else mline)
       (before ++ first :: after)
  = before ++ first :: map (fun m => if is_video m then strip_simulcast m else m) after.
Proof.
  intros Hbefore. rewrite imap_app. simpl. f_equal; [| f_equal].
  - rewrite <- (map_id before) at 2.
    apply imap_pointwise. intros i m Hm.
    rewrite Forall_forall in Hbefore.
    rewrite (Hbefore m); [reflexivity |]. eapply list_elem_of_lookup_2. exact Hm.
  - rewrite Nat.add_0_r, Z.eqb_refl, andb_false_r. reflexivity.
  - apply imap_pointwise. intros i m _. simpl.
    destruct (Z.eqb_spec (Z.of_nat (length before + S i)) (Z.of_nat (length before)));
      [lia |].
    now rewrite andb_true_r.
Qed.

(** The rewriting on a description cut at its first video section. *)
Lemma insert_parsed_at_first (browser : Browser) (parsed : ParsedSdp)
    (before : list MLine) (first : MLine) (after : list MLine) :
  media parsed = before ++ first :: after ->
  Forall (fun m => is_video m = false) before ->
  is_video first = true ->
  insertUnifiedPlanSimulcastReceive_parsed browser parsed
  = Return (set_media parsed
              (if advertisesb first
               then before ++ first :: strip_videos after
               else before ++ add_simulcast browser first :: after)).
Proof.
  intros Hmedia Hbefore Hfirst. unfold insertUnifiedPlanSimulcastReceive_parsed.
  rewrite Hmedia, (findIndex_first is_video before first after Hbefore Hfirst),
    js_index_first.
  fold (advertisesb first). destruct (advertisesb first).
  - now rewrite (strip_other_videos before first after Hbefore).
  - rewrite Nat2Z.id.
    replace (length before) with (length before + 0)%nat at 1 by lia.
    now rewrite alter_app_r.
Qed.

Lemma only_first_carries (before : list MLine) (first : MLine) (after : list MLine) :
  Forall (fun m => is_video m = false) before ->
  forall j m,
    (before ++ first :: strip_videos after) !! j = Some m ->
    is_video m = true -> carries_advertisement m = true -> j = length before.
Proof.
  intros Hbefore j m Hat Hvideo Hcarries.
  destruct (Nat.lt_trichotomy j (length before)) as [Hlt | [Heq | Hgt]];
    [| assumption |].
  - rewrite lookup_app_l in Hat by assumption.
    rewrite Forall_forall in Hbefore.
    rewrite (Hbefore m) in Hvideo; [discriminate |].
    eapply list_elem_of_lookup_2. exact Hat.
  - rewrite lookup_app_r in Hat by lia.
    destruct (j - length before)%nat as [| k] eqn:Hk; [lia |]. simpl in Hat.
    unfold strip_videos in Hat.
    apply list_elem_of_lookup_2, list_elem_of_In, in_map_iff in Hat
      as (x & <- & _).
    destruct (is_video x) eqn:V; [discriminate Hcarries | congruence].
Qed.

Lemma advertisesb_carries (m : MLine) :
  carries_advertisement m = false -> advertisesb m = false.
Proof.
  unfold carries_advertisement, advertisesb. intros H.
  apply orb_false_elim in H as [H _]. apply orb_false_elim in H as [-> _].
  reflexivity.
Qed.

(** C3, as the code has it. With structured simulcast negotiation in use,
    take a description whose parsed sections are [before ++ first :: after],
    [first] being the first video section; the description returned is
    written from a parsed form with the same session-level lines and these
    sections. (a) If no section has receive identifiers or a simulcast
    attribute, only [first] differs: it now has the three receive
    identifiers 1, 2, 3 of direction [recv] and the simulcast receive
    attribute, and is the one section that carries the advertisement. (b)
    If [first] has receive identifiers and a simulcast attribute, [first]
    is kept, every other video section is written without identifiers and
    simulcast attributes, and a section that is not video is written as it
    was: [first] is the one video section that carries the
    advertisement. *)
Theorem insertUnifiedPlanSimulcastReceive_first_video_only
    (parse : string -> ParsedSdp) (write : ParsedSdp -> string) (browser : Browser)
    (desc : RTCSessionDescription) (before : list MLine) (first : MLine)
    (after : list MLine) :
  usesSdpMungingForSimulcast browser = false ->
  media (parse (sdp desc)) = before ++ first :: after ->
  Forall (fun m => is_video m = false) before ->
  is_video first = true ->
  exists parsed',
    insertUnifiedPlanSimulcastReceive_parsed browser (parse (sdp desc)) = Return parsed'
    /\ insertUnifiedPlanSimulcastReceive parse write browser desc
       = Return {| desc_type := desc_type desc; sdp := write parsed' |}
    /\ session_lines parsed' = session_lines (parse (sdp desc))
    /\ (Forall (fun m => carries_advertisement m = false) (before ++ first :: after) ->
        exists first',
          media parsed' = before ++ first' :: after
          /\ rids first' = Some receive_rids
          /\ map rid_id receive_rids = ["1"; "2"; "3"]%string
          /\ Forall (fun r => rid_direction r = "recv"%string) receive_rids
          /\ simulcast_03 first' = Some {| simulcast_value := simulcastLine browser |}
          /\ simulcast first' = None
          /\ without_simulcast first' = without_simulcast first
          /\ (forall j m,
                media parsed' !! j = Some m ->
                carries_advertisement m = true -> j = length before))
    /\ (is_Some (rids first) ->
        is_Some (simulcast first) \/ is_Some (simulcast_03 first) ->
        exists after',
          media parsed' = before ++ first :: after'
          /\ Forall2
               (fun m m' =>
                  without_simulcast m' = without_simulcast m
                  /\ (is_video m = true ->
                      rids m' = None /\ simulcast m' = None /\ simulcast_03 m' = None)
                  /\ (is_video m = false -> m' = m))
               after after'
          /\ (forall j m,
                media parsed' !! j = Some m ->
                is_video m = true -> carries_advertisement m = true ->
                j = length before)).
Proof.
  intros Hstructured Hmedia Hbefore Hfirst.
  pose proof (insert_parsed_at_first browser _ before first after Hmedia Hbefore Hfirst)
    as Hrewritten.
  eexists. split; [exact Hrewritten |]. split; [| split; [reflexivity |]].
  { unfold insertUnifiedPlanSimulcastReceive. now rewrite Hstructured, Hrewritten. }
  split.
  - intros Hnone.
    apply Forall_app in Hnone as [Hnone_before Hnone_rest].
    apply Forall_cons in Hnone_rest as [Hnone_first Hnone_after].
    rewrite (advertisesb_carries first Hnone_first). simpl.
    exists (add_simulcast browser first).
    split; [reflexivity |]. split; [reflexivity |]. split; [reflexivity |].
    split; [repeat constructor |]. split; [reflexivity |]. split.
    { simpl. unfold carries_advertisement in Hnone_first.
      apply orb_false_elim in Hnone_first as [Hnone_first _].
      apply orb_false_elim in Hnone_first as [_ Hsim].
      destruct (simulcast first); [discriminate Hsim | reflexivity]. }
    split; [reflexivity |].
    intros j m Hat Hcarries.
    destruct (Nat.lt_trichotomy j (length before)) as [Hlt | [Heq | Hgt]];
      [| assumption |]; exfalso.
    + rewrite lookup_app_l in Hat by assumption.
      rewrite Forall_forall in Hnone_before.
      rewrite (Hnone_before m) in Hcarries; [discriminate |].
      eapply list_elem_of_lookup_2. exact Hat.
    + rewrite lookup_app_r in Hat by lia.
      destruct (j - length before)%nat as [| k] eqn:Hk; [lia |]. simpl in Hat.
      rewrite Forall_forall in Hnone_after.
      rewrite (Hnone_after m) in Hcarries; [discriminate |].
      eapply list_elem_of_lookup_2. exact Hat.
  - intros Hrids Hsim.
    assert (advertisesb first = true) as ->.
    { unfold advertisesb. rewrite (bool_decide_eq_true_2 _ Hrids).
      destruct Hsim as [H | H]; rewrite (bool_decide_eq_true_2 _ H); simpl;
        rewrite ?orb_true_r; reflexivity. }
    simpl. exists (strip_videos after).
    split; [reflexivity |]. split; [| now apply only_first_carries].
    unfold strip_videos. clear. induction after as [| m rest IH]; simpl;
      constructor; [| exact IH].
    destruct (is_video m); repeat split; intros; try discriminate; reflexivity.
Qed.

Lemma insertUnifiedPlanSimulcastReceive_first_video_only_witness :
  (exists parsed',
     insertUnifiedPlanSimulcastReceive_parsed Samples.chromium
       (Samples.parsedOf [Samples.audioSection; Samples.plainVideo; Samples.plainVideo])
     = Return parsed'
     /\ map carries_advertisement (media parsed') = [false; true; false])
  /\ (exists parsed',
        insertUnifiedPlanSimulcastReceive_parsed Samples.chromium
          (Samples.parsedOf
             [Samples.audioSection; Samples.advertising "video";
              Samples.advertising "video"])
        = Return parsed'
        /\ map carries_advertisement (media parsed') = [false; true; false]).
Proof.
  assert (Forall (fun m => is_video m = false) [Samples.audioSection]) as Hbefore.
  { constructor; [reflexivity | constructor]. }
  split.
  - destruct (insertUnifiedPlanSimulcastReceive_first_video_only
                (Samples.parseTo
                   (Samples.parsedOf
                      [Samples.audioSection; Samples.plainVideo; Samples.plainVideo]))
                Samples.writeText Samples.chromium Samples.offer
                [Samples.audioSection] Samples.plainVideo [Samples.plainVideo]
                eq_refl eq_refl Hbefore eq_refl)
      as (parsed' & Hreturn & _ & _ & Ha & _).
    exists parsed'. split; [exact Hreturn |].
    destruct Ha as (first' & -> & Hr & _ & _ & _ & _ & _ & _).
    { repeat constructor. }
    simpl. unfold carries_advertisement at 2. now rewrite Hr.
  - destruct (insertUnifiedPlanSimulcastReceive_first_video_only
                (Samples.parseTo
                   (Samples.parsedOf
                      [Samples.audioSection; Samples.advertising "video";
                       Samples.advertising "video"]))
                Samples.writeText Samples.chromium Samples.offer
                [Samples.audioSection] (Samples.advertising "video")
                [Samples.advertising "video"]
                eq_refl eq_refl Hbefore eq_refl)
      as (parsed' & Hreturn & _ & _ & _ & Hb).
    exists parsed'. split; [exact Hreturn |].
    destruct Hb as (after' & -> & Hstripped & _).
    { eexists. reflexivity. }
    { right. eexists. reflexivity. }
    inversion Hstripped as [| m m' rest rest' (_ & Hvideo & _) Hrest]; subst.
    inversion Hrest; subst.
    destruct (Hvideo eq_refl) as (Hr & Hs & Hs3).
    simpl. unfold carries_advertisement at 3. now rewrite Hr, Hs, Hs3.
Defined.

(** C3, as the claim has it, fails: a description whose audio section also
    has receive identifiers and a simulcast attribute keeps them, the
    stripping being made on video sections only; two sections of the
    description returned carry the advertisement. *)
Lemma insertUnifiedPlanSimulcastReceive_keeps_other_kinds :
  usesSdpMungingForSimulcast Samples.chromium = false
  /\ insertUnifiedPlanSimulcastReceive_parsed Samples.chromium
       (Samples.parsedOf
          [Samples.advertising "audio"; Samples.advertising "video";
           Samples.advertising "video"])
     = Return (Samples.parsedOf
                 [Samples.advertising "audio"; Samples.advertising "video";
                  Samples.plainVideo])
  /\ map carries_advertisement
       [Samples.advertising "audio"; Samples.advertising "video"; Samples.plainVideo]
     = [true; true; false].
Proof. repeat split. Qed.

(** The two descriptions of the specification's test, on the parsed form:
    two video sections without simulcast attributes, and two video sections
    that both have them. *)
Example insertUnifiedPlanSimulcastReceive_two_videos :
  insertUnifiedPlanSimulcastReceive_parsed Samples.chromium
    (Samples.parsedOf [Samples.audioSection; Samples.plainVideo; Samples.plainVideo])
  = Return (Samples.parsedOf
              [Samples.audioSection; add_simulcast Samples.chromium Samples.plainVideo;
               Samples.plainVideo])
  /\ insertUnifiedPlanSimulcastReceive_parsed Samples.chromium
       (Samples.parsedOf
          [Samples.audioSection; Samples.advertising "video"; Samples.advertising "video"])
     = Return (Samples.parsedOf
                 [Samples.audioSection; Samples.advertising "video"; Samples.plainVideo])
  /\ simulcastLine Samples.chromium = "recv rid=1;2;3"%string.
Proof. repeat split. Qed.

(** * Further properties of the operations *)

(** ** Transceiver lookup *)

Lemma js_find_first_match {A : Type} (p : A -> bool) (l : list A) (i : nat) (x : A) :
  js_find p l = Some (i, x) <-> first_match p l i x.
Proof.
  unfold first_match. revert i. induction l as [| y r IH]; intros i; simpl.
  - split; [discriminate | intros [H _]; discriminate].
  - destruct (p y) eqn:Py.
    + split.
      * intros [= <- <-]. repeat split; [assumption | intros j z Hj; lia].
      * intros (Hat & Hx & Hfirst). destruct i as [| i]; simpl in Hat.
        -- congruence.
        -- specialize (Hfirst 0%nat y). simpl in Hfirst.
           rewrite Hfirst in Py by (reflexivity || lia). discriminate.
    + split.
      * destruct (js_find p r) as [[j z] |]; [| discriminate].
        intros [= <- <-]. destruct (proj1 (IH j) eq_refl) as (Hat & Hx & Hfirst).
        repeat split; [assumption | assumption |].
        intros [| k] u Hk Hu; simpl in Hu; [congruence |].
        apply (Hfirst k); [lia | assumption].
      * intros (Hat & Hx & Hfirst). destruct i as [| i]; simpl in Hat.
        -- congruence.
        -- assert (js_find p r = Some (i, x)) as ->; [| reflexivity].
           apply IH. repeat split; [assumption | assumption |].
           intros j u Hj Hu. apply (Hfirst (S j)); [lia | assumption].
Qed.

Lemma js_find_none_iff {A : Type} (p : A -> bool) (l : list A) :
  js_find p l = None <-> Forall (fun x => p x = false) l.
Proof.
  split; [| apply js_find_none].
  induction l as [| y r IH]; simpl; [constructor |].
  destruct (p y) eqn:Py; [discriminate |].
  destruct (js_find p r) as [[j z] |]; [discriminate |].
  intros _. constructor; [assumption | now apply IH].
Qed.

(** X1. [_findTransceiver] returns the first transceiver of the connection
    that passes its test, and nothing exactly when none passes. The test is
    on the kind of the receiver's track when no track is given or when the
    track is a muted video track on a browser that mutes video by removing
    the stream; otherwise it is on the id of the sender's track. *)
Theorem findTransceiver_first_match (browser : Browser) (this : TPCUtils)
    (mediaType : MediaType) (localTrack : option JitsiLocalTrack) :
  let test :=
    match localTrack with
    | Some lt =>
        if doesVideoMuteByStreamRemove browser && isVideoTrack lt && isMuted lt
        then receives mediaType else sends lt
    | None => receives mediaType
    end in
  (forall i t,
     _findTransceiver browser this mediaType localTrack = Some (i, t)
     <-> first_match test (transceivers (pc this)) i t)
  /\ (_findTransceiver browser this mediaType localTrack = None
      <-> Forall (fun t => test t = false) (transceivers (pc this))).
Proof.
  unfold _findTransceiver. destruct localTrack as [lt |]; simpl.
  - destruct (doesVideoMuteByStreamRemove browser && isVideoTrack lt && isMuted lt);
      split; [intros i t; apply js_find_first_match | apply js_find_none_iff
             | intros i t; apply js_find_first_match | apply js_find_none_iff].
  - split; [intros i t; apply js_find_first_match | apply js_find_none_iff].
Qed.

(** ** What the calls on a sender leave alone *)

Lemma map_alter_same {A B : Type} (f : A -> B) (g : A -> A) (i : nat) (l : list A) :
  (forall x, f (g x) = f x) -> map f (alter g i l) = map f l.
Proof.
  intros Hfg. revert i. induction l as [| y r IH]; intros [| i]; simpl;
    try reflexivity.
  - now rewrite Hfg.
  - f_equal. apply IH.
Qed.

Lemma map_alter_set {A B : Type} (f : A -> B) (g : A -> A) (v : B) (i : nat) (l : list A) :
  (forall x, f (g x) = v) -> map f (alter g i l) = <[i := v]> (map f l).
Proof.
  intros Hfg. revert i. induction l as [| y r IH]; intros [| i]; simpl;
    try reflexivity.
  - now rewrite Hfg.
  - f_equal. apply IH.
Qed.

Lemma js_find_alter_index {A : Type} (p : A -> bool) (g : A -> A) (i : nat) (l : list A) :
  (forall x, p (g x) = p x) ->
  fst <$> js_find p (alter g i l) = fst <$> js_find p l.
Proof.
  intros Hpg. revert i. induction l as [| y r IH]; intros [| i]; try reflexivity.
  - change (alter g 0%nat (y :: r)) with (g y :: r). simpl.
    rewrite Hpg. now destruct (p y).
  - change (alter g (S i) (y :: r)) with (y :: alter g i r). simpl.
    destruct (p y); [reflexivity |]. specialize (IH i).
    destruct (js_find p (alter g i r)) as [[j z] |], (js_find p r) as [[j' z'] |];
      cbv [fmap option_fmap option_map fst] in *; congruence.
Qed.

(** [sender.replaceTrack] writes the track of one sender and the history of
    calls, and nothing else. *)
Lemma sender_replaceTrack_frame (transport : Transport) (this : TPCUtils) (i : nat)
    (track : option MediaStreamTrack) :
  let r := sender_replaceTrack transport this i track in
  same_tables (pc r.1) (pc this)
  /\ same_settings r.1 this
  /\ directions (pc r.1) = directions (pc this)
  /\ receivers (pc r.1) = receivers (pc this)
  /\ senderCalls (pc r.1) = senderCalls (pc this) ++ [CallReplaceTrack i track]
  /\ sender_tracks (pc r.1)
     = match r.2 with
       | Fulfilled => <[i := track]> (sender_tracks (pc this))
       | Rejected _ => sender_tracks (pc this)
       end.
Proof.
  unfold sender_replaceTrack, same_tables, same_settings, directions, receivers,
    sender_tracks.
  destruct (replaceTrackAnswer transport i track); simpl.
  - repeat split; reflexivity.
  - repeat split; try reflexivity.
    + now apply map_alter_same.
    + now apply map_alter_same.
    + now apply map_alter_set.
Qed.

(** ** Muting and unmuting *)

(** X2. [removeTrackMute] on a track for which the lookup finds no
    transceiver returns a promise rejected with
    [RTCRtpTransceiver for <kind> not found] and changes nothing. When a
    transceiver is found, one [replaceTrack(null)] call is made on its
    sender; if the browser accepts it that sender carries no track
    afterwards, if it refuses the senders are as before; the tables, the
    directions and the receivers are untouched either way. *)
Theorem removeTrackMute_effect (browser : Browser) (transport : Transport)
    (this : TPCUtils) (localTrack : JitsiLocalTrack) :
  let r := removeTrackMute browser transport this localTrack in
  match _findTransceiver browser this (getType localTrack) (Some localTrack) with
  | None =>
      r = (this, Rejected (Error (not_found_message (getType localTrack))))
  | Some (i, _) =>
      same_tables (pc r.1) (pc this)
      /\ directions (pc r.1) = directions (pc this)
      /\ receivers (pc r.1) = receivers (pc this)
      /\ senderCalls (pc r.1) = senderCalls (pc this) ++ [CallReplaceTrack i None]
      /\ r.2 = match replaceTrackAnswer transport i None with
               | None => Fulfilled
               | Some e => Rejected e
               end
      /\ sender_tracks (pc r.1)
         = match r.2 with
           | Fulfilled => <[i := None]> (sender_tracks (pc this))
           | Rejected _ => sender_tracks (pc this)
           end
  end.
Proof.
  unfold removeTrackMute.
  destruct (_findTransceiver browser this (getType localTrack) (Some localTrack))
    as [[i t] |]; [| reflexivity].
  destruct (sender_replaceTrack_frame transport this i None)
    as (Ht & _ & Hd & Hr & Hc & Hs).
  repeat split; try assumption; try apply Ht.
  unfold sender_replaceTrack. now destruct (replaceTrackAnswer transport i None).
Qed.

(** X3. [addTrackUnmute], when a transceiver receives the kind of the track:
    one [replaceTrack(track)] call is made on the sender of the first such
    transceiver, which carries the track afterwards if the browser accepts
    the call; the promise settles as the browser answers; the tables, the
    directions and the receivers are untouched. *)
Theorem addTrackUnmute_effect (browser : Browser) (transport : Transport)
    (this : TPCUtils) (localTrack : JitsiLocalTrack) (i : nat) (t : RTCRtpTransceiver) :
  first_match (receives (getType localTrack)) (transceivers (pc this)) i t ->
  let r := addTrackUnmute browser transport this localTrack in
  same_tables (pc r.1) (pc this)
  /\ directions (pc r.1) = directions (pc this)
  /\ receivers (pc r.1) = receivers (pc this)
  /\ senderCalls (pc r.1)
     = senderCalls (pc this) ++ [CallReplaceTrack i (getTrack localTrack)]
  /\ r.2 = match replaceTrackAnswer transport i (getTrack localTrack) with
           | None => Fulfilled
           | Some e => Rejected e
           end
  /\ sender_tracks (pc r.1)
     = match r.2 with
       | Fulfilled => <[i := getTrack localTrack]> (sender_tracks (pc this))
       | Rejected _ => sender_tracks (pc this)
       end.
Proof.
  intros Hfirst. apply js_find_first_match in Hfirst.
  unfold addTrackUnmute, _findTransceiver. rewrite Hfirst.
  destruct (sender_replaceTrack_frame transport this i (getTrack localTrack))
    as (Ht & _ & Hd & Hr & Hc & Hs).
  repeat split; try assumption; try apply Ht.
  unfold sender_replaceTrack.
  now destruct (replaceTrackAnswer transport i (getTrack localTrack)).
Qed.

Lemma addTrackUnmute_effect_witness :
  sender_tracks
    (pc (addTrackUnmute Samples.chromium Samples.accepting MoreSamples.utils
           Samples.micTrack).1)
  = [getTrack Samples.micTrack; Some Samples.camera].
Proof.
  assert (first_match (receives (getType Samples.micTrack))
            (transceivers (pc MoreSamples.utils)) 0 MoreSamples.audioTransceiver) as H.
  { repeat split. intros j y Hj. lia. }
  destruct (addTrackUnmute_effect Samples.chromium Samples.accepting MoreSamples.utils
              Samples.micTrack 0 MoreSamples.audioTransceiver H)
    as (_ & _ & _ & _ & _ & Hs).
  exact Hs.
Defined.

(** ** What the steps of [replaceTrack] keep *)

Lemma keeps_bookkeeping_refl (this : TPCUtils) : keeps_bookkeeping this this.
Proof. repeat split. Qed.

Lemma keeps_bookkeeping_trans (a b c : TPCUtils) :
  keeps_bookkeeping a b -> keeps_bookkeeping b c -> keeps_bookkeeping a c.
Proof.
  unfold keeps_bookkeeping, same_tables, same_settings.
  intros ((? & ? & ?) & (? & ? & ?) & ?) ((? & ? & ?) & (? & ? & ?) & ?).
  repeat split; congruence.
Qed.

Lemma sender_replaceTrack_keeps (transport : Transport) (this : TPCUtils) (i : nat)
    (track : option MediaStreamTrack) :
  keeps_bookkeeping this (sender_replaceTrack transport this i track).1.
Proof.
  destruct (sender_replaceTrack_frame transport this i track) as (? & ? & _ & ? & _).
  unfold keeps_bookkeeping. auto.
Qed.

Lemma sender_setParameters_frame (transport : Transport) (this : TPCUtils) (i : nat)
    (parameters : RTCRtpParameters) :
  let r := sender_setParameters transport this i parameters in
  keeps_bookkeeping this r.1
  /\ directions (pc r.1) = directions (pc this)
  /\ sender_tracks (pc r.1) = sender_tracks (pc this)
  /\ senderCalls (pc r.1) = senderCalls (pc this) ++ [CallSetParameters i parameters].
Proof.
  unfold sender_setParameters, keeps_bookkeeping, same_tables, same_settings,
    directions, receivers, sender_tracks.
  destruct (setParametersAnswer transport i parameters); simpl.
  - repeat split; reflexivity.
  - repeat split; try reflexivity; now apply map_alter_same.
Qed.

Lemma set_direction_at_frame (this : TPCUtils) (found : option (nat * RTCRtpTransceiver))
    (d : TransceiverDirection) :
  let this' := set_direction_at this found d in
  keeps_bookkeeping this this'
  /\ sender_tracks (pc this') = sender_tracks (pc this)
  /\ senderCalls (pc this') = senderCalls (pc this)
  /\ directions (pc this')
     = match found with
       | Some (j, _) => <[j := d]> (directions (pc this))
       | None => directions (pc this)
       end.
Proof.
  unfold set_direction_at, keeps_bookkeeping, same_tables, same_settings,
    directions, receivers, sender_tracks.
  destruct found as [[j u] |]; simpl.
  - repeat split; try reflexivity;
      try (now apply map_alter_same); now apply map_alter_set.
  - repeat split; reflexivity.
Qed.

Lemma setEncodings_frame (browser : Browser) (transport : Transport)
    (this : TPCUtils) (track : JitsiLocalTrack) :
  let r := setEncodings browser transport this track in
  keeps_bookkeeping this r.1
  /\ directions (pc r.1) = directions (pc this)
  /\ sender_tracks (pc r.1) = sender_tracks (pc this).
Proof.
  unfold setEncodings.
  destruct (no_encodings _); [repeat split; reflexivity |].
  destruct (_findTransceiver browser this (getType track) (Some track)) as [[i t] |];
    [| repeat split; reflexivity].
  destruct (sender_setParameters_frame transport this i
              {| encodings := Some (_getStreamEncodings this track) |})
    as (? & ? & ? & _).
  auto.
Qed.

Lemma findTransceiver_at (browser : Browser) (this : TPCUtils) (mediaType : MediaType)
    (localTrack : option JitsiLocalTrack) (i : nat) (t : RTCRtpTransceiver) :
  _findTransceiver browser this mediaType localTrack = Some (i, t) ->
  transceivers (pc this) !! i = Some t.
Proof.
  unfold _findTransceiver. destruct localTrack as [lt |];
    [destruct (doesVideoMuteByStreamRemove browser && isVideoTrack lt && isMuted lt) |];
    intros H; apply js_find_first_match in H; apply H.
Qed.

Lemma alter_at {A : Type} (g : A -> A) (l : list A) (i : nat) (x : A) :
  l !! i = Some x -> alter g i l = <[i := g x]> l.
Proof.
  revert i. induction l as [| y r IH]; intros [| i] Hat; simpl in *; try discriminate.
  - now injection Hat as ->.
  - f_equal. now apply IH.
Qed.

(** ** Setting the encodings *)

(** X4. [setEncodings] on a track whose transceiver is found but whose sender
    reports no encodings yet (none, or an empty list) returns a fulfilled
    promise and does nothing: no [setParameters] call, no change. *)
Theorem setEncodings_before_negotiation (browser : Browser) (transport : Transport)
    (this : TPCUtils) (track : JitsiLocalTrack) (i : nat) (t : RTCRtpTransceiver) :
  _findTransceiver browser this (getType track) (Some track) = Some (i, t) ->
  encodings (sender_parameters (sender t)) = None
  \/ encodings (sender_parameters (sender t)) = Some [] ->
  setEncodings browser transport this track = (this, Fulfilled).
Proof.
  intros Hfound Hnone. unfold setEncodings. rewrite Hfound. simpl.
  destruct (sender_parameters (sender t)) as [encs]. simpl in Hnone.
  now destruct Hnone as [-> | ->].
Qed.

Lemma setEncodings_before_negotiation_witness :
  setEncodings Samples.chromium Samples.accepting Samples.tpcUtils Samples.oldTrack
  = (Samples.tpcUtils, Fulfilled).
Proof.
  apply (setEncodings_before_negotiation Samples.chromium Samples.accepting
           Samples.tpcUtils Samples.oldTrack 0 Samples.videoTransceiver).
  - reflexivity.
  - left. reflexivity.
Defined.

(** X5. [setEncodings] on a track whose sender reports at least one
    encoding makes exactly one [setParameters] call on that sender, with the
    encodings [_getStreamEncodings] gives for the track, and its promise
    settles as the browser answers. If the call is accepted the sender
    reports these encodings afterwards; if it is refused the transceivers
    are as before. The tables, the directions and the tracks of the senders
    are untouched. *)
Theorem setEncodings_commits_layers (browser : Browser) (transport : Transport)
    (this : TPCUtils) (track : JitsiLocalTrack) (i : nat) (t : RTCRtpTransceiver)
    (e : Encoding) (es : list Encoding) :
  _findTransceiver browser this (getType track) (Some track) = Some (i, t) ->
  encodings (sender_parameters (sender t)) = Some (e :: es) ->
  let layers := {| encodings := Some (_getStreamEncodings this track) |} in
  let r := setEncodings browser transport this track in
  senderCalls (pc r.1) = senderCalls (pc this) ++ [CallSetParameters i layers]
  /\ r.2 = match setParametersAnswer transport i layers with
           | None => Fulfilled
           | Some err => Rejected err
           end
  /\ transceivers (pc r.1)
     = match r.2 with
       | Fulfilled => <[i := set_sender_parameters t layers]> (transceivers (pc this))
       | Rejected _ => transceivers (pc this)
       end
  /\ keeps_bookkeeping this r.1
  /\ directions (pc r.1) = directions (pc this)
  /\ sender_tracks (pc r.1) = sender_tracks (pc this).
Proof.
  intros Hfound Hsome.
  pose proof (setEncodings_frame browser transport this track) as (Hk & Hd & Hs).
  pose proof (findTransceiver_at _ _ _ _ _ _ Hfound) as Hat.
  simpl in *. split; [| split; [| split; [| auto]]].
  all: unfold setEncodings; rewrite Hfound; simpl;
    destruct (sender_parameters (sender t)) as [encs]; simpl in Hsome; subst encs; simpl;
    unfold sender_setParameters;
    destruct (setParametersAnswer transport i _); simpl; try reflexivity.
  now rewrite (alter_at _ _ _ _ Hat).
Qed.

Lemma setEncodings_commits_layers_witness :
  let r := setEncodings Samples.chromium Samples.accepting MoreSamples.utils
             Samples.oldTrack in
  r.2 = Fulfilled
  /\ senderCalls (pc r.1)
     = [CallSetParameters 1
          {| encodings := Some (localStreamEncodingsConfig MoreSamples.utils) |}].
Proof.
  destruct (setEncodings_commits_layers Samples.chromium Samples.accepting
              MoreSamples.utils Samples.oldTrack 1 MoreSamples.negotiatedTransceiver
              (EncodingSamples.layer 1.0) [] eq_refl eq_refl) as (Hc & Hr & _).
  split; [exact Hr | exact Hc].
Defined.

(** ** Replacing, muting and unmuting through [replaceTrack] *)

Lemma addTrackUnmute_keeps (browser : Browser) (transport : Transport)
    (this : TPCUtils) (localTrack : JitsiLocalTrack) :
  keeps_bookkeeping this (addTrackUnmute browser transport this localTrack).1.
Proof.
  unfold addTrackUnmute.
  destruct (_findTransceiver browser this (getType localTrack) None) as [[i t] |].
  - apply sender_replaceTrack_keeps.
  - apply keeps_bookkeeping_refl.
Qed.

Lemma removeTrackMute_keeps (browser : Browser) (transport : Transport)
    (this : TPCUtils) (localTrack : JitsiLocalTrack) :
  keeps_bookkeeping this (removeTrackMute browser transport this localTrack).1.
Proof.
  unfold removeTrackMute.
  destruct (_findTransceiver browser this (getType localTrack) (Some localTrack))
    as [[i t] |].
  - apply sender_replaceTrack_keeps.
  - apply keeps_bookkeeping_refl.
Qed.

(** Writing the tables keeps the settings and the receivers. *)
Lemma keeps_settings_receivers (this this' : TPCUtils) (p : TraceablePeerConnection) :
  keeps_bookkeeping this this' ->
  isSimulcastOn p = isSimulcastOn (pc this') ->
  receivers p = receivers (pc this') ->
  same_settings (with_pc this' p) this
  /\ receivers (pc (with_pc this' p)) = receivers (pc this).
Proof.
  unfold keeps_bookkeeping, same_settings. simpl.
  intros (_ & (? & ? & ?) & ?) ? ?. repeat split; congruence.
Qed.

(** X6. Whatever the tracks given and however the browser answers,
    [replaceTrack] leaves the simulcast mode, the bitrates, the layer
    configuration and the receivers as they were; and when its promise is
    rejected the three tables (tracks by id, synchronization sources by id,
    added streams) are as before the call. *)
Theorem replaceTrack_frame (browser : Browser) (transport : Transport)
    (this : TPCUtils) (oldTrack newTrack : option JitsiLocalTrack) :
  let r := replaceTrack browser transport this oldTrack newTrack in
  same_settings r.1 this
  /\ receivers (pc r.1) = receivers (pc this)
  /\ (forall e, r.2 = Rejected e -> same_tables (pc r.1) (pc this)).
Proof.
  assert (forall this' s, keeps_bookkeeping this this' ->
            same_settings this' this
            /\ receivers (pc this') = receivers (pc this)
            /\ (forall e : JsError, Rejected s = Rejected e ->
                same_tables (pc this') (pc this))) as Hkept.
  { intros this' s (? & ? & ?). auto. }
  assert (forall this' p, keeps_bookkeeping this this' ->
            isSimulcastOn p = isSimulcastOn (pc this') ->
            receivers p = receivers (pc this') ->
            same_settings (with_pc this' p) this
            /\ receivers (pc (with_pc this' p)) = receivers (pc this)
            /\ (forall e : JsError, Fulfilled = Rejected e ->
                same_tables (pc (with_pc this' p)) (pc this))) as Hdone.
  { intros this' p K Hs Hr.
    destruct (keeps_settings_receivers this this' p K Hs Hr).
    split; [assumption | split; [assumption | discriminate]]. }
  unfold replaceTrack. destruct oldTrack as [o |], newTrack as [n |]; simpl.
  - destruct (getOriginalStream n) as [stream |].
    + destruct (_findTransceiver browser this (getType n) (Some o)) as [[i t] |];
        [| simpl; apply Hkept, keeps_bookkeeping_refl].
      pose proof (sender_replaceTrack_keeps transport this i (getTrack n)) as K.
      destruct (sender_replaceTrack transport this i (getTrack n)) as [this1 [| e1]];
        simpl in *.
      * now apply (Hdone this1).
      * now apply Hkept.
    + simpl. now apply (Hdone this), keeps_bookkeeping_refl.
  - pose proof (removeTrackMute_keeps browser transport this o) as K.
    destruct (removeTrackMute browser transport this o) as [this1 [| e1]]; simpl in *.
    + pose proof (set_direction_at_frame this1
                    (_findTransceiver browser this1 (getType o) None) RECVONLY)
        as (K2 & _).
      apply Hdone; [| reflexivity | reflexivity].
      now apply keeps_bookkeeping_trans with this1.
    + now apply Hkept.
  - pose proof (addTrackUnmute_keeps browser transport this n) as K.
    destruct (addTrackUnmute browser transport this n) as [this1 [| e1]]; simpl in *;
      [| now apply Hkept].
    pose proof (set_direction_at_frame this1
                  (_findTransceiver browser this1 (getType n) (Some n)) SENDRECV)
      as (K2 & _).
    pose proof (keeps_bookkeeping_trans _ _ _ K K2) as K12.
    destruct (isChromiumBased browser); simpl.
    + now apply Hdone.
    + pose proof (setEncodings_frame browser transport
                    (set_direction_at this1
                       (_findTransceiver browser this1 (getType n) (Some n)) SENDRECV) n)
        as (K3 & _).
      pose proof (keeps_bookkeeping_trans _ _ _ K12 K3) as K123.
      destruct (setEncodings browser transport _ n) as [this3 [| e3]]; simpl in *.
      * now apply Hdone.
      * now apply Hkept.
  - split; [| split]; [repeat split | reflexivity | discriminate].
Qed.

Lemma replaceTrack_frame_witness :
  same_tables
    (pc (replaceTrack Samples.chromium MoreSamples.refusing Samples.tpcUtils
           (Some Samples.oldTrack) (Some Samples.newTrack)).1)
    (pc Samples.tpcUtils).
Proof.
  destruct (replaceTrack_frame Samples.chromium MoreSamples.refusing Samples.tpcUtils
              (Some Samples.oldTrack) (Some Samples.newTrack)) as (_ & _ & Hrejected).
  apply (Hrejected (SenderError "InvalidStateError")). reflexivity.
Defined.

(** A rejected replacement: the browser refuses the call on the sender and
    the tables still hold the old track. *)
Example replaceTrack_refused :
  let r := replaceTrack Samples.chromium MoreSamples.refusing Samples.tpcUtils
             (Some Samples.oldTrack) (Some Samples.newTrack) in
  r.2 = Rejected (SenderError "InvalidStateError")
  /\ localTracks (pc r.1) !! 1%Z = Some Samples.oldTrack
  /\ _addedStreams (pc r.1) = [7%Z].
Proof. repeat split. Qed.

Lemma replaceTrack_mute_tables (browser : Browser) (transport : Transport)
    (this : TPCUtils) (oldTrack : JitsiLocalTrack) :
  let r := replaceTrack browser transport this (Some oldTrack) None in
  r.2 = Fulfilled ->
  localTracks (pc r.1) = delete (rtcId oldTrack) (localTracks (pc this))
  /\ localSSRCs (pc r.1) = delete (rtcId oldTrack) (localSSRCs (pc this))
  /\ _addedStreams (pc r.1) = _addedStreams (pc this).
Proof.
  simpl. pose proof (removeTrackMute_keeps browser transport this oldTrack) as K.
  destruct (removeTrackMute browser transport this oldTrack) as [this1 [| e1]];
    simpl in *; [| discriminate].
  intros _.
  destruct (set_direction_at_frame this1
              (_findTransceiver browser this1 (getType oldTrack) None) RECVONLY)
    as (K2 & _).
  destruct (keeps_bookkeeping_trans _ _ _ K K2) as ((Ht & Hs & Ha) & _).
  now rewrite Ht, Hs, Ha.
Qed.

Lemma replaceTrack_unmute_tables (browser : Browser) (transport : Transport)
    (this : TPCUtils) (newTrack : JitsiLocalTrack) :
  let r := replaceTrack browser transport this None (Some newTrack) in
  r.2 = Fulfilled ->
  localTracks (pc r.1) = <[rtcId newTrack := newTrack]> (localTracks (pc this))
  /\ localSSRCs (pc r.1) = localSSRCs (pc this)
  /\ _addedStreams (pc r.1) = _addedStreams (pc this).
Proof.
  simpl. pose proof (addTrackUnmute_keeps browser transport this newTrack) as K.
  destruct (addTrackUnmute browser transport this newTrack) as [this1 [| e1]];
    simpl in *; [| discriminate].
  pose proof (set_direction_at_frame this1
                (_findTransceiver browser this1 (getType newTrack) (Some newTrack))
                SENDRECV) as (K2 & _).
  pose proof (keeps_bookkeeping_trans _ _ _ K K2) as K12.
  destruct (isChromiumBased browser); simpl.
  - intros _. destruct K12 as ((Ht & Hs & Ha) & _). now rewrite Ht, Hs, Ha.
  - pose proof (setEncodings_frame browser transport
                  (set_direction_at this1
                     (_findTransceiver browser this1 (getType newTrack) (Some newTrack))
                     SENDRECV) newTrack) as (K3 & _).
    pose proof (keeps_bookkeeping_trans _ _ _ K12 K3) as K123.
    destruct (setEncodings browser transport _ newTrack) as [this3 [| e3]];
      simpl in *; [| discriminate].
    intros _. destruct K123 as ((Ht & Hs & Ha) & _). now rewrite Ht, Hs, Ha.
Qed.

Lemma insert_at_found {A B : Type} (f1 f2 : option (nat * A)) (v : B) (l : list B) :
  fst <$> f1 = fst <$> f2 ->
  match f1 with Some (j, _) => <[j := v]> l | None => l end
  = match f2 with Some (j, _) => <[j := v]> l | None => l end.
Proof.
  destruct f1 as [[j x] |], f2 as [[j' x'] |];
    cbv [fmap option_fmap option_map fst]; congruence.
Qed.

(** X7. The mute path, [replaceTrack(oldTrack, undefined)], when its promise
    is fulfilled: the transceiver of the old track was found and exactly
    one call, [replaceTrack(null)], was made on its sender, which carries
    no track any more; the first transceiver that receives the kind of the
    track, if there is one, has direction [recvonly] and no other direction
    has changed; the entries of the old track are deleted from the tracks
    by id and from the synchronization sources by id; the added streams are
    as before. *)
Theorem replaceTrack_mute (browser : Browser) (transport : Transport)
    (this : TPCUtils) (oldTrack : JitsiLocalTrack) :
  let r := replaceTrack browser transport this (Some oldTrack) None in
  r.2 = Fulfilled ->
  exists i t,
    _findTransceiver browser this (getType oldTrack) (Some oldTrack) = Some (i, t)
    /\ senderCalls (pc r.1) = senderCalls (pc this) ++ [CallReplaceTrack i None]
    /\ sender_tracks (pc r.1) = <[i := None]> (sender_tracks (pc this))
    /\ directions (pc r.1)
       = match _findTransceiver browser this (getType oldTrack) None with
         | Some (j, _) => <[j := RECVONLY]> (directions (pc this))
         | None => directions (pc this)
         end
    /\ localTracks (pc r.1) = delete (rtcId oldTrack) (localTracks (pc this))
    /\ localSSRCs (pc r.1) = delete (rtcId oldTrack) (localSSRCs (pc this))
    /\ _addedStreams (pc r.1) = _addedStreams (pc this).
Proof.
  intros r Hdone.
  pose proof (replaceTrack_mute_tables browser transport this oldTrack Hdone) as Htables.
  subst r. revert Hdone Htables. simpl. unfold removeTrackMute.
  destruct (_findTransceiver browser this (getType oldTrack) (Some oldTrack))
    as [[i t] |]; [| discriminate].
  pose proof (sender_replaceTrack_frame transport this i None)
    as (_ & _ & Hd & _ & Hc & Hs).
  assert (fst <$> _findTransceiver browser
                    (sender_replaceTrack transport this i None).1
                    (getType oldTrack) None
          = fst <$> _findTransceiver browser this (getType oldTrack) None) as Hsame.
  { unfold sender_replaceTrack, _findTransceiver.
    destruct (replaceTrackAnswer transport i None); simpl; [reflexivity |].
    now apply js_find_alter_index. }
  destruct (sender_replaceTrack transport this i None) as [this1 [| e1]];
    simpl in *; [| discriminate].
  intros _ Htables. exists i, t. split; [reflexivity |].
  destruct (set_direction_at_frame this1
              (_findTransceiver browser this1 (getType oldTrack) None) RECVONLY)
    as (_ & Hs2 & Hc2 & Hd2).
  unfold sender_tracks, directions in *. simpl in *.
  split; [congruence |]. split; [congruence |].
  split; [| exact Htables].
  rewrite Hd2, Hd. now apply insert_at_found.
Qed.

Lemma replaceTrack_mute_witness :
  let r := replaceTrack Samples.chromium Samples.accepting MoreSamples.utils
             (Some Samples.oldTrack) None in
  sender_tracks (pc r.1) = [None; None]
  /\ directions (pc r.1) = [RECVONLY; RECVONLY]
  /\ localTracks (pc r.1) !! 1%Z = None.
Proof.
  destruct (replaceTrack_mute Samples.chromium Samples.accepting MoreSamples.utils
              Samples.oldTrack eq_refl)
    as (i & t & Hfound & _ & Hs & Hd & Ht & _).
  injection Hfound as <- <-.
  split; [exact Hs | split; [exact Hd |]].
  rewrite Ht. apply lookup_delete_eq.
Defined.

(** X8. The unmute path, [replaceTrack(undefined, newTrack)], when its
    promise is fulfilled: the first transceiver that receives the kind of
    the track was found and its sender carries the track of [newTrack]; the
    transceiver looked up for [newTrack] after that, if any, has direction
    [sendrecv] and no other direction has changed; [newTrack] is entered in
    the tracks by id, while the synchronization sources by id and the added
    streams are as before. On a Chromium browser the [replaceTrack] call is
    the only call made on a sender. *)
Theorem replaceTrack_unmute (browser : Browser) (transport : Transport)
    (this : TPCUtils) (newTrack : JitsiLocalTrack) :
  let r := replaceTrack browser transport this None (Some newTrack) in
  r.2 = Fulfilled ->
  exists i t,
    _findTransceiver browser this (getType newTrack) None = Some (i, t)
    /\ sender_tracks (pc r.1) = <[i := getTrack newTrack]> (sender_tracks (pc this))
    /\ directions (pc r.1)
       = match _findTransceiver browser
                 (addTrackUnmute browser transport this newTrack).1
                 (getType newTrack) (Some newTrack) with
         | Some (j, _) => <[j := SENDRECV]> (directions (pc this))
         | None => directions (pc this)
         end
    /\ localTracks (pc r.1) = <[rtcId newTrack := newTrack]> (localTracks (pc this))
    /\ localSSRCs (pc r.1) = localSSRCs (pc this)
    /\ _addedStreams (pc r.1) = _addedStreams (pc this)
    /\ (isChromiumBased browser = true ->
        senderCalls (pc r.1)
        = senderCalls (pc this) ++ [CallReplaceTrack i (getTrack newTrack)]).
Proof.
  intros r Hdone.
  pose proof (replaceTrack_unmute_tables browser transport this newTrack Hdone)
    as (Ht & Hss & Ha).
  subst r. revert Hdone Ht Hss Ha. simpl. unfold addTrackUnmute.
  destruct (_findTransceiver browser this (getType newTrack) None) as [[i t] |];
    [| discriminate].
  pose proof (sender_replaceTrack_frame transport this i (getTrack newTrack))
    as (_ & _ & Hd & _ & Hc & Hs).
  destruct (sender_replaceTrack transport this i (getTrack newTrack))
    as [this1 [| e1]]; simpl in *; [| discriminate].
  destruct (set_direction_at_frame this1
              (_findTransceiver browser this1 (getType newTrack) (Some newTrack))
              SENDRECV) as (_ & Hs2 & Hc2 & Hd2).
  simpl in *.
  destruct (isChromiumBased browser); simpl.
  - intros _ Ht Hss Ha. exists i, t.
    unfold sender_tracks, directions in *. simpl in *.
    repeat split; try assumption; try congruence.
    rewrite Hd2, Hd. reflexivity.
  - pose proof (setEncodings_frame browser transport
                  (set_direction_at this1
                     (_findTransceiver browser this1 (getType newTrack) (Some newTrack))
                     SENDRECV) newTrack) as (_ & Hd3 & Hs3).
    destruct (setEncodings browser transport _ newTrack) as [this3 [| e3]];
      simpl in *; [| discriminate].
    intros _ Ht Hss Ha. exists i, t.
    unfold sender_tracks, directions in *. simpl in *.
    repeat split; try assumption; try congruence.
    rewrite Hd3, Hd2, Hd. reflexivity.
Qed.

Lemma replaceTrack_unmute_witness :
  let r := replaceTrack Samples.chromium Samples.accepting MoreSamples.utils
             None (Some Samples.micTrack) in
  sender_tracks (pc r.1) = [getTrack Samples.micTrack; Some Samples.camera]
  /\ localTracks (pc r.1) !! 4%Z = Some Samples.micTrack.
Proof.
  destruct (replaceTrack_unmute Samples.chromium Samples.accepting MoreSamples.utils
              Samples.micTrack eq_refl)
    as (i & t & Hfound & Hs & _ & Ht & _).
  injection Hfound as <- <-.
  split; [exact Hs |]. rewrite Ht. apply lookup_insert_eq.
Defined.

(** X9. A track muted and then unmuted through [replaceTrack], both promises
    fulfilled, is again in the tracks by id, but its synchronization source
    is not: the mute deletes the entry and the unmute writes none. The
    added streams are as before. *)
Theorem replaceTrack_mute_then_unmute (browser : Browser) (transport : Transport)
    (this : TPCUtils) (track : JitsiLocalTrack) :
  let muted := replaceTrack browser transport this (Some track) None in
  let unmuted := replaceTrack browser transport muted.1 None (Some track) in
  muted.2 = Fulfilled -> unmuted.2 = Fulfilled ->
  localTracks (pc unmuted.1) = <[rtcId track := track]> (localTracks (pc this))
  /\ localSSRCs (pc unmuted.1) = delete (rtcId track) (localSSRCs (pc this))
  /\ map_get (localSSRCs (pc unmuted.1)) (rtcId track) = None
  /\ _addedStreams (pc unmuted.1) = _addedStreams (pc this).
Proof.
  intros muted unmuted Hmuted Hunmuted.
  destruct (replaceTrack_mute_tables browser transport this track Hmuted)
    as (Ht1 & Hs1 & Ha1).
  destruct (replaceTrack_unmute_tables browser transport muted.1 track Hunmuted)
    as (Ht2 & Hs2 & Ha2).
  fold muted in Ht1, Hs1, Ha1. fold unmuted in Ht2, Hs2, Ha2.
  rewrite Ht2, Hs2, Ha2, Ht1, Hs1, Ha1.
  repeat split.
  - apply insert_delete_eq.
  - unfold map_get. now rewrite lookup_delete_eq.
Qed.

Lemma replaceTrack_mute_then_unmute_witness :
  let muted := replaceTrack Samples.chromium Samples.accepting MoreSamples.utils
                 (Some Samples.oldTrack) None in
  let unmuted := replaceTrack Samples.chromium Samples.accepting muted.1
                   None (Some Samples.oldTrack) in
  localTracks (pc unmuted.1) !! 1%Z = Some Samples.oldTrack
  /\ localSSRCs (pc unmuted.1) !! 1%Z = None.
Proof.
  destruct (replaceTrack_mute_then_unmute Samples.chromium Samples.accepting
              MoreSamples.utils Samples.oldTrack eq_refl eq_refl)
    as (Ht & Hs & _).
  split.
  - rewrite Ht. apply lookup_insert_eq.
  - rewrite Hs. apply lookup_delete_eq.
Defined.

(** ** Enabling and suspending the transfer of a media kind *)

Lemma receives_one_kind (k1 k2 : MediaType) (t : RTCRtpTransceiver) :
  k1 <> k2 -> receives k1 t = true -> receives k2 t = false.
Proof.
  unfold receives, strict_eq_string. intros Hne.
  destruct (mst_kind <$> receiver_track (receiver t)) as [kind |]; [| discriminate].
  intros H1. apply String.eqb_eq in H1. apply String.eqb_neq. subst kind.
  destruct k1, k2; simpl; congruence.
Qed.

Lemma transfer_directions_skip (k : MediaType) (a h : bool) (idx : nat)
    (before rest : list RTCRtpTransceiver) :
  Forall (fun t => receives k t = false) before ->
  transfer_directions k a h idx (before ++ rest)
  = before ++ transfer_directions k a h idx rest.
Proof.
  induction 1 as [| t r Ht _ IH]; simpl; [reflexivity |].
  now rewrite Ht, IH.
Qed.

Lemma transfer_directions_later (k : MediaType) (h : bool) (idx : nat)
    (l : list RTCRtpTransceiver) :
  transfer_directions k true h (S idx) l
  = map (fun t => if receives k t then set_direction t RECVONLY else t) l.
Proof.
  revert idx. induction l as [| t r IH]; intros idx; simpl; [reflexivity |].
  destruct (receives k t); now rewrite IH.
Qed.

Lemma transfer_directions_suspend (k : MediaType) (h : bool) (idx : nat)
    (l : list RTCRtpTransceiver) :
  transfer_directions k false h idx l
  = map (fun t => if receives k t then set_direction t INACTIVE else t) l.
Proof.
  revert idx. induction l as [| t r IH]; intros idx; simpl; [reflexivity |].
  destruct (receives k t); now rewrite IH.
Qed.

Lemma transfer_directions_again (k : MediaType) (a b h h' : bool) (idx : nat)
    (l : list RTCRtpTransceiver) :
  transfer_directions k b h idx (transfer_directions k a h' idx l)
  = transfer_directions k b h idx l.
Proof.
  revert idx. induction l as [| t r IH]; intros idx; simpl; [reflexivity |].
  destruct (receives k t) eqn:R; simpl.
  - change (receives k (set_direction t (transfer_direction a h' idx)))
      with (receives k t).
    rewrite R. now rewrite IH.
  - now rewrite R, IH.
Qed.

Lemma transfer_directions_commute (k1 k2 : MediaType) (a b h1 h2 : bool) (i j : nat)
    (l : list RTCRtpTransceiver) :
  k1 <> k2 ->
  transfer_directions k2 b h2 j (transfer_directions k1 a h1 i l)
  = transfer_directions k1 a h1 i (transfer_directions k2 b h2 j l).
Proof.
  intros Hne. revert i j. induction l as [| t r IH]; intros i j; simpl; [reflexivity |].
  destruct (receives k1 t) eqn:R1.
  - pose proof (receives_one_kind k1 k2 t Hne R1) as R2. rewrite R2. simpl.
    change (receives k2 (set_direction t (transfer_direction a h1 i)))
      with (receives k2 t).
    now rewrite R2, R1, IH.
  - destruct (receives k2 t) eqn:R2; simpl.
    + change (receives k1 (set_direction t (transfer_direction b h2 j)))
        with (receives k1 t).
      now rewrite R1, R2, IH.
    + now rewrite R1, R2, IH.
Qed.

(** X10. Suspending the transfer of a kind: afterwards every transceiver has
    the receiver and the sender it had, and its direction is [inactive] if
    its receiver has a track of that kind and the direction it had
    otherwise. *)
Theorem setMediaTransferActive_suspend (this : TPCUtils) (mediaType : MediaType) :
  Forall2
    (fun t t' =>
       receiver t' = receiver t /\ sender t' = sender t
       /\ direction t' = if receives mediaType t then INACTIVE else direction t)
    (transceivers (pc this))
    (transceivers (pc (setMediaTransferActive this mediaType false)))
  /\ directions (pc (setMediaTransferActive this mediaType false))
     = map (fun t => if receives mediaType t then INACTIVE else direction t)
           (transceivers (pc this)).
Proof.
  simpl. unfold directions. simpl. rewrite transfer_directions_suspend.
  induction (transceivers (pc this)) as [| t rest [IH1 IH2]]; simpl.
  - split; [constructor | reflexivity].
  - split.
    + constructor; [| exact IH1]. now destruct (receives mediaType t).
    + rewrite IH2. now destruct (receives mediaType t).
Qed.

Lemma transfer_resume_transceivers (this : TPCUtils) (mediaType : MediaType)
    (before : list RTCRtpTransceiver) (first : RTCRtpTransceiver)
    (after : list RTCRtpTransceiver) :
  transceivers (pc this) = before ++ first :: after ->
  Forall (fun t => receives mediaType t = false) before ->
  receives mediaType first = true ->
  transceivers (pc (setMediaTransferActive this mediaType true))
  = before
    ++ set_direction first
         (match getLocalTracks (pc this) mediaType with
          | [] => RECVONLY
          | _ :: _ => SENDRECV
          end)
    :: map (fun t => if receives mediaType t then set_direction t RECVONLY else t) after.
Proof.
  intros Hts Hbefore Hfirst. simpl. rewrite Hts.
  rewrite (transfer_directions_skip _ _ _ _ _ _ Hbefore). simpl.
  rewrite Hfirst, transfer_directions_later.
  now destruct (getLocalTracks (pc this) mediaType).
Qed.

(** X11. Enabling the transfer of a kind: with [first] the first transceiver
    whose receiver has a track of that kind, afterwards the direction of
    [first] is [sendrecv] if the connection has a local track of that kind
    and [recvonly] otherwise, the direction of every later transceiver of
    that kind is [recvonly], and every other direction is as it was; the
    receivers and the senders are as they were. So [first] is the only
    transceiver of the kind that can be [sendrecv] afterwards. *)
Theorem setMediaTransferActive_resume (this : TPCUtils) (mediaType : MediaType)
    (before : list RTCRtpTransceiver) (first : RTCRtpTransceiver)
    (after : list RTCRtpTransceiver) :
  transceivers (pc this) = before ++ first :: after ->
  Forall (fun t => receives mediaType t = false) before ->
  receives mediaType first = true ->
  let this' := setMediaTransferActive this mediaType true in
  directions (pc this')
  = map direction before
    ++ (match getLocalTracks (pc this) mediaType with
        | [] => RECVONLY
        | _ :: _ => SENDRECV
        end)
    :: map (fun t => if receives mediaType t then RECVONLY else direction t) after
  /\ receivers (pc this') = receivers (pc this)
  /\ map sender (transceivers (pc this')) = map sender (transceivers (pc this))
  /\ (forall j t',
        transceivers (pc this') !! j = Some t' ->
        receives mediaType t' = true -> direction t' = SENDRECV ->
        j = length before).
Proof.
  intros Hts Hbefore Hfirst this'.
  pose proof (transfer_resume_transceivers this mediaType before first after
                Hts Hbefore Hfirst) as Hafter.
  fold this' in Hafter. unfold directions, receivers. rewrite Hafter, Hts.
  rewrite !map_app. simpl. rewrite !map_map.
  split; [| split; [| split]].
  - do 2 f_equal. apply map_ext. intros t. now destruct (receives mediaType t).
  - do 2 f_equal. apply map_ext. intros t. now destruct (receives mediaType t).
  - do 2 f_equal. apply map_ext. intros t. now destruct (receives mediaType t).
  - intros j t' Hat Hkind Hdir.
    destruct (Nat.lt_trichotomy j (length before)) as [Hlt | [Heq | Hgt]];
      [| assumption |]; exfalso.
    + rewrite lookup_app_l in Hat by assumption.
      rewrite Forall_forall in Hbefore.
      rewrite (Hbefore t') in Hkind; [discriminate |].
      eapply list_elem_of_lookup_2. exact Hat.
    + rewrite lookup_app_r in Hat by lia.
      destruct (j - length before)%nat as [| k] eqn:Hk; [lia |]. simpl in Hat.
      apply list_elem_of_lookup_2, list_elem_of_In, in_map_iff in Hat
        as (t & <- & _).
      destruct (receives mediaType t) eqn:R; [discriminate Hdir | congruence].
Qed.

Lemma setMediaTransferActive_resume_witness :
  directions (pc MoreSamples.twoVideos) = [RECVONLY; INACTIVE; SENDRECV]
  /\ directions (pc (setMediaTransferActive MoreSamples.twoVideos VIDEO true))
     = [RECVONLY; SENDRECV; RECVONLY].
Proof.
  split; [reflexivity |].
  destruct (setMediaTransferActive_resume MoreSamples.twoVideos VIDEO
              [MoreSamples.audioTransceiver] MoreSamples.idleVideoTransceiver
              [MoreSamples.negotiatedTransceiver] eq_refl) as (Hd & _).
  - constructor; [reflexivity | constructor].
  - reflexivity.
  - exact Hd.
Defined.

Lemma transfer_directions_pointwise (k : MediaType) (a h : bool) (idx : nat)
    (l : list RTCRtpTransceiver) (i : nat) (t' : RTCRtpTransceiver) :
  transfer_directions k a h idx l !! i = Some t' ->
  exists t, l !! i = Some t
    /\ receiver t' = receiver t /\ sender t' = sender t
    /\ (t' = t \/ (receives k t = true /\ direction t' <> SENDONLY)).
Proof.
  revert idx i t'. induction l as [| t r IH]; intros idx [| i] t'; simpl;
    try discriminate.
  - destruct (receives k t) eqn:R; intros [= <-]; exists t; repeat split; auto.
    right. split; [assumption |]. simpl. unfold transfer_direction.
    destruct a; [destruct (Nat.eqb idx 0 && h) |]; discriminate.
  - destruct (receives k t); simpl; apply IH.
Qed.

(** X12. [setMediaTransferActive] writes directions only, and never
    [sendonly]: the tables, the settings and the history of sender calls are
    as before, the transceivers are as many, each keeps its receiver and its
    sender, and a transceiver is either unchanged or receives the kind and
    has a direction other than [sendonly]. *)
Theorem setMediaTransferActive_frame (this : TPCUtils) (mediaType : MediaType)
    (active : bool) :
  let this' := setMediaTransferActive this mediaType active in
  keeps_bookkeeping this this'
  /\ senderCalls (pc this') = senderCalls (pc this)
  /\ length (transceivers (pc this')) = length (transceivers (pc this))
  /\ (forall i t', transceivers (pc this') !! i = Some t' ->
      exists t, transceivers (pc this) !! i = Some t
        /\ receiver t' = receiver t /\ sender t' = sender t
        /\ (t' = t \/ (receives mediaType t = true /\ direction t' <> SENDONLY))).
Proof.
  simpl.
  assert (forall a h idx l,
            map receiver (transfer_directions mediaType a h idx l) = map receiver l
            /\ length (transfer_directions mediaType a h idx l) = length l) as Hsame.
  { intros a h idx l. revert idx. induction l as [| t r IH]; intros idx; simpl;
      [now split |].
    destruct (receives mediaType t); simpl;
      [destruct (IH (S idx)) as [-> ->] | destruct (IH idx) as [-> ->]]; now split. }
  split; [| split; [reflexivity | split]].
  - unfold keeps_bookkeeping, same_tables, same_settings, receivers. simpl.
    repeat split; try reflexivity. apply Hsame.
  - apply Hsame.
  - intros i t'. apply transfer_directions_pointwise.
Qed.

Lemma setMediaTransferActive_frame_witness :
  exists t,
    transceivers (pc MoreSamples.utils) !! 1%nat = Some t
    /\ sender (set_direction MoreSamples.negotiatedTransceiver INACTIVE) = sender t.
Proof.
  destruct (setMediaTransferActive_frame MoreSamples.utils VIDEO false)
    as (_ & _ & _ & Hat).
  destruct (Hat 1%nat (set_direction MoreSamples.negotiatedTransceiver INACTIVE) eq_refl)
    as (t & Ht & _ & Hs & _).
  exists t. split; [exact Ht | exact Hs].
Defined.

(** X13. Of two calls of [setMediaTransferActive] for one kind the second
    decides: the connection after both is the connection after the second
    alone. In particular a repeated call changes nothing more, and
    suspending then enabling gives what enabling gives. *)
Theorem setMediaTransferActive_last_wins (this : TPCUtils) (mediaType : MediaType)
    (a b : bool) :
  setMediaTransferActive (setMediaTransferActive this mediaType a) mediaType b
  = setMediaTransferActive this mediaType b.
Proof.
  unfold setMediaTransferActive. simpl.
  change (getLocalTracks
            (set_transceivers (pc this)
               (transfer_directions mediaType a
                  (negb (Nat.eqb (length (getLocalTracks (pc this) mediaType)) 0)) 0
                  (transceivers (pc this))))
            mediaType)
    with (getLocalTracks (pc this) mediaType).
  unfold with_pc, set_transceivers. simpl. now rewrite transfer_directions_again.
Qed.

(** X14. Calls of [setMediaTransferActive] for the two kinds commute:
    [setAudioTransferActive] and [setVideoTransferActive] can be made in
    either order. *)
Theorem setMediaTransferActive_kinds_commute (this : TPCUtils) (a b : bool) :
  setVideoTransferActive (setAudioTransferActive this a) b
  = setAudioTransferActive (setVideoTransferActive this b) a.
Proof.
  unfold setVideoTransferActive, setAudioTransferActive, setMediaTransferActive.
  simpl. unfold with_pc, set_transceivers, getLocalTracks. simpl.
  rewrite transfer_directions_commute by discriminate. reflexivity.
Qed.

(** ** The layer configuration *)

(** X15. The configuration built by the constructor has three layers, all
    active, with the ids 1, 2, 3 in this order on every browser. Each
    downscale factor goes with the same bitrate ceiling on every browser
    (4 with low, 2 with standard, 1 with high); Firefox has the layers in
    the opposite order of quality. *)
Theorem constructor_layers (browser : Browser) (peerconnection : TraceablePeerConnection)
    (bitrates : VideoBitrates) :
  let config := localStreamEncodingsConfig (constructor browser peerconnection bitrates) in
  let qualities :=
    [ (Some 4.0%float, Some (low bitrates));
      (Some 2.0%float, Some (standard bitrates));
      (Some 1.0%float, Some (high bitrates)) ] in
  map rid config = map Some SIM_LAYER_RIDS
  /\ Forall (fun e => active e = Some true) config
  /\ map layer_quality config = if isFirefox browser then rev qualities else qualities.
Proof.
  simpl. unfold makeLocalStreamEncodingsConfig, layer_quality.
  destruct (isFirefox browser); simpl; repeat split; repeat constructor.
Qed.

(** X16. As initiator on a browser other than Firefox, [addTrack] creates a
    transceiver of direction [sendrecv] for the track's stream; for a video
    track of a simulcast session built by the constructor, the encodings it
    passes are the three layers with the ids 1, 2, 3 and the downscale
    factors 4, 2, 1. On Firefox it passes no encodings. *)
Theorem addTrack_initiator (browser : Browser) (peerconnection : TraceablePeerConnection)
    (bitrates : VideoBitrates) (localTrack : JitsiLocalTrack) :
  isSimulcastOn peerconnection = true ->
  getType localTrack = VIDEO ->
  exists init,
    addTrack browser (constructor browser peerconnection bitrates) localTrack true
    = CallAddTransceiver (getTrack localTrack) init
    /\ init_direction init = SENDRECV
    /\ init_streams init = [getOriginalStream localTrack]
    /\ (isFirefox browser = true -> init_sendEncodings init = [])
    /\ (isFirefox browser = false ->
        map rid (init_sendEncodings init) = map Some SIM_LAYER_RIDS
        /\ map scaleResolutionDownBy (init_sendEncodings init)
           = [Some 4.0%float; Some 2.0%float; Some 1.0%float]).
Proof.
  intros Hsim Hvideo.
  unfold addTrack, _getStreamEncodings, isVideoTrack, constructor,
    makeLocalStreamEncodingsConfig. simpl.
  rewrite Hsim, Hvideo. simpl.
  destruct (isFirefox browser); simpl; eexists; (split; [reflexivity |]);
    simpl; repeat split; intros; try discriminate; reflexivity.
Qed.

Lemma addTrack_initiator_witness :
  exists init,
    addTrack Samples.chromium MoreSamples.utils Samples.oldTrack true
    = CallAddTransceiver (Some Samples.camera) init
    /\ init_direction init = SENDRECV.
Proof.
  destruct (addTrack_initiator Samples.chromium MoreSamples.connection Samples.bitrates
              Samples.oldTrack eq_refl eq_refl) as (init & Hcall & Hdir & _).
  exists init. split; [exact Hcall | exact Hdir].
Defined.




(** ** Reconciling resolutions, continued *)

Lemma copy_resolutions_frame (config encs : list Encoding) :
  map without_scale (copy_resolutions config encs).1 = map without_scale encs.
Proof.
  revert config. induction encs as [| e rest IH]; intros config; [reflexivity |].
  destruct config as [| c config']; [reflexivity |].
  simpl. specialize (IH config').
  destruct (copy_resolutions config' rest) as [rest' r]. simpl in *.
  now rewrite IH.
Qed.

Lemma copy_resolutions_factors (config encs : list Encoding) :
  map scaleResolutionDownBy (copy_resolutions config encs).1
  = take (length encs) (map scaleResolutionDownBy config)
    ++ drop (length config) (map scaleResolutionDownBy encs).
Proof.
  revert config. induction encs as [| e rest IH]; intros config.
  - simpl. now rewrite drop_nil.
  - destruct config as [| c config']; [reflexivity |].
    simpl. specialize (IH config').
    destruct (copy_resolutions config' rest) as [rest' r]. simpl in *.
    now rewrite IH.
Qed.

Lemma copy_resolutions_completion (config encs : list Encoding) :
  (copy_resolutions config encs).2
  = if (length encs <=? length config)%nat then Return () else Throw TypeError.
Proof.
  revert config. induction encs as [| e rest IH]; intros config; [reflexivity |].
  destruct config as [| c config']; [reflexivity |].
  simpl. specialize (IH config').
  destruct (copy_resolutions config' rest) as [rest' r]. simpl in *.
  exact IH.
Qed.

(** X18. [updateEncodingsResolution] writes downscale factors and nothing
    else: the parameters it leaves have encodings exactly when the given
    ones have, as many, and each with the [active], [maxBitrate] and [rid]
    it had. *)
Theorem updateEncodingsResolution_frame (browser : Browser) (this : TPCUtils)
    (parameters : RTCRtpParameters) :
  map without_scale <$> encodings (updateEncodingsResolution browser this parameters).1
  = map without_scale <$> encodings parameters.
Proof.
  unfold updateEncodingsResolution.
  destruct (isWebKitBased browser); [| reflexivity].
  destruct (encodings parameters) as [encs |] eqn:E; [| simpl; now rewrite E].
  destruct (allEqualEncodings encs); [| simpl; now rewrite E].
  pose proof (copy_resolutions_frame (localStreamEncodingsConfig this) encs) as H.
  destruct (copy_resolutions (localStreamEncodingsConfig this) encs) as [encs' r].
  simpl in *. now rewrite H.
Qed.

(** X19. On a WebKit browser, when every reported encoding has the same
    downscale factor, [updateEncodingsResolution] gives each encoding the
    configured factor of its position; it completes normally when there are
    at most as many encodings as configured layers, and otherwise throws a
    [TypeError] after writing the configured positions, the encodings
    beyond them keeping their factor. *)
Theorem updateEncodingsResolution_collapsed_layers (browser : Browser) (this : TPCUtils)
    (parameters : RTCRtpParameters) (encs : list Encoding) :
  isWebKitBased browser = true ->
  encodings parameters = Some encs ->
  allEqualEncodings encs = true ->
  let config := localStreamEncodingsConfig this in
  let r := updateEncodingsResolution browser this parameters in
  exists encs',
    encodings r.1 = Some encs'
    /\ map scaleResolutionDownBy encs'
       = take (length encs) (map scaleResolutionDownBy config)
         ++ drop (length config) (map scaleResolutionDownBy encs)
    /\ r.2 = if (length encs <=? length config)%nat then Return () else Throw TypeError.
Proof.
  intros Hwebkit Hencs Hall. simpl. unfold updateEncodingsResolution.
  rewrite Hwebkit, Hencs, Hall.
  pose proof (copy_resolutions_factors (localStreamEncodingsConfig this) encs) as Hf.
  pose proof (copy_resolutions_completion (localStreamEncodingsConfig this) encs) as Hc.
  destruct (copy_resolutions (localStreamEncodingsConfig this) encs) as [encs' r].
  simpl in *. exists encs'. now repeat split.
Qed.

Lemma updateEncodingsResolution_collapsed_layers_witness :
  exists encs',
    encodings (updateEncodingsResolution Samples.chromium Samples.tpcUtils
                 EncodingSamples.collapsed).1 = Some encs'
    /\ map scaleResolutionDownBy encs' = [Some 4.0; Some 2.0; Some 1.0]%float.
Proof.
  destruct (updateEncodingsResolution_collapsed_layers Samples.chromium Samples.tpcUtils
              EncodingSamples.collapsed _ eq_refl eq_refl eq_refl)
    as (encs' & He & Hf & _).
  exists encs'. split; [exact He | exact Hf].
Defined.

(** X20. [updateEncodingsResolution] completes normally unless the browser
    is WebKit based, every reported encoding has the same downscale factor
    and there are more encodings than configured layers: then, and only
    then, it throws. *)
Theorem updateEncodingsResolution_throws (browser : Browser) (this : TPCUtils)
    (parameters : RTCRtpParameters) :
  (updateEncodingsResolution browser this parameters).2
  = if isWebKitBased browser
       && match encodings parameters with
          | Some encs =>
              allEqualEncodings encs
              && (length (localStreamEncodingsConfig this) <? length encs)%nat
          | None => false
          end
    then Throw TypeError else Return ().
Proof.
  unfold updateEncodingsResolution.
  destruct (isWebKitBased browser); [| reflexivity].
  destruct (encodings parameters) as [encs |]; [| reflexivity].
  destruct (allEqualEncodings encs); [| reflexivity].
  pose proof (copy_resolutions_completion (localStreamEncodingsConfig this) encs) as Hc.
  destruct (copy_resolutions (localStreamEncodingsConfig this) encs) as [encs' r].
  simpl in *. rewrite Hc.
  destruct (Nat.leb_spec (length encs) (length (localStreamEncodingsConfig this)));
    destruct (Nat.ltb_spec (length (localStreamEncodingsConfig this)) (length encs));
    try reflexivity; lia.
Qed.

(** ** Ordering the sources, continued *)











(** With a member id repeated in the grouping the descriptors are repeated,
    and again at every rewriting. *)
Example reorder_mLine_repeated_member :
  let section := Samples.section "video" [Samples.source 10 "cname" "c"]
                   [Samples.fid "10 10"] in
  length (ssrcs (reorder_mLine section)) = 2%nat
  /\ length (ssrcs (reorder_mLine (reorder_mLine section))) = 4%nat.
Proof. split; reflexivity. Qed.

(** X23. [ensureCorrectOrderOfSsrcs] writes source descriptors only: the
    description returned has the type of the given one, and its text is
    written from a parsed form with the same session-level lines, as many
    media sections, and in each the same kind, groupings, receive
    identifiers, simulcast attributes and other lines. *)
Theorem ensureCorrectOrderOfSsrcs_frame (parse : string -> ParsedSdp)
    (write : ParsedSdp -> string) (description : RTCSessionDescription) :
  exists parsed',
    ensureCorrectOrderOfSsrcs parse write description
    = {| desc_type := desc_type description; sdp := write parsed' |}
    /\ session_lines parsed' = session_lines (parse (sdp description))
    /\ map without_sources (media parsed')
       = map without_sources (media (parse (sdp description))).
Proof.
  exists (ensureCorrectOrderOfSsrcs_parsed (parse (sdp description))).
  split; [reflexivity | split; [reflexivity |]].
  simpl. rewrite map_map. apply map_ext. intros mLine.
  unfold reorder_mLine, without_sources.
  destruct (String.eqb _ _); [reflexivity |].
  destruct (ssrcGroups mLine) eqn:E; simpl; rewrite ?E; reflexivity.
Qed.

(** ** Simulcast receive lines, continued *)

Lemma first_split {A : Type} (p : A -> bool) (l : list A) (x : A) :
  js_index l (findIndex p l) = Some x ->
  exists before after,
    l = before ++ x :: after /\ Forall (fun y => p y = false) before /\ p x = true.
Proof.
  induction l as [| y r IH]; simpl.
  - unfold js_index. simpl. discriminate.
  - destruct (p y) eqn:Py.
    + unfold js_index. simpl. intros [= ->]. exists [], r. now repeat split.
    + pose proof (findIndex_range p r) as Hrange.
      destruct (Z.ltb_spec (findIndex p r) 0) as [Hneg | Hpos].
      * unfold js_index. simpl. discriminate.
      * intros Hat.
        assert (js_index r (findIndex p r) = Some x) as Hr.
        { unfold js_index in *.
          destruct (Z.ltb_spec (findIndex p r + 1) 0); [lia |].
          destruct (Z.ltb_spec (findIndex p r) 0); [lia |].
          replace (Z.to_nat (findIndex p r + 1)) with (S (Z.to_nat (findIndex p r)))
            in Hat by lia.
          exact Hat. }
        destruct (IH Hr) as (before & after & -> & Hbefore & Hx).
        exists (y :: before), after. repeat split; [| assumption].
        now constructor.
Qed.

Lemma exists_first_split {A : Type} (p : A -> bool) (l : list A) :
  Exists (fun y => p y = true) l ->
  exists before x after,
    l = before ++ x :: after /\ Forall (fun y => p y = false) before /\ p x = true.
Proof.
  induction l as [| y r IH]; intros Hex; [inversion Hex |].
  destruct (p y) eqn:Py.
  - exists [], y, r. now repeat split.
  - destruct IH as (before & x & after & -> & Hbefore & Hx).
    { inversion Hex; subst; [congruence | assumption]. }
    exists (y :: before), x, after. repeat split; [| assumption]. now constructor.
Qed.

Lemma none_or_some {A : Type} (p : A -> bool) (l : list A) :
  Forall (fun y => p y = false) l \/ Exists (fun y => p y = true) l.
Proof.
  induction l as [| y r [IH | IH]].
  - left. constructor.
  - destruct (p y) eqn:Py; [right; now constructor | left; now constructor].
  - right. now apply Exists_cons_tl.
Qed.

Lemma strip_videos_again (l : list MLine) : strip_videos (strip_videos l) = strip_videos l.
Proof.
  unfold strip_videos. rewrite map_map. apply map_ext. intros m.
  destruct (is_video m) eqn:V; [| now rewrite V].
  change (is_video (strip_simulcast m)) with (is_video m). now rewrite V.
Qed.

(** X24. With structured simulcast negotiation in use,
    [insertUnifiedPlanSimulcastReceive] throws exactly when the parsed
    description has no video section, and what it throws is a [TypeError];
    with SDP munging in use it returns the description it was given. *)
Theorem insertUnifiedPlanSimulcastReceive_throws (parse : string -> ParsedSdp)
    (write : ParsedSdp -> string) (browser : Browser) (desc : RTCSessionDescription) :
  let r := insertUnifiedPlanSimulcastReceive parse write browser desc in
  (usesSdpMungingForSimulcast browser = true -> r = Return desc)
  /\ (usesSdpMungingForSimulcast browser = false ->
      (r = Throw TypeError
       <-> Forall (fun m => is_video m = false) (media (parse (sdp desc))))
      /\ (forall e, r = Throw e -> e = TypeError)).
Proof.
  simpl. unfold insertUnifiedPlanSimulcastReceive. split; [now intros -> |].
  intros ->. split; [split |].
  - intros Hthrow.
    destruct (none_or_some is_video (media (parse (sdp desc))))
      as [Hnone | Hsome]; [assumption | exfalso].
    destruct (exists_first_split is_video (media (parse (sdp desc))) Hsome)
      as (before & first & after & Hmedia & Hbefore & Hfirst).
    rewrite (insert_parsed_at_first browser _ before first after Hmedia Hbefore Hfirst)
      in Hthrow.
    discriminate.
  - intros Hnone. unfold insertUnifiedPlanSimulcastReceive_parsed.
    now rewrite (findIndex_none is_video _ Hnone).
  - intros e. unfold insertUnifiedPlanSimulcastReceive_parsed.
    destruct (js_index _ _); [| now intros [= <-]].
    destruct (_ && _); discriminate.
Qed.

Lemma insertUnifiedPlanSimulcastReceive_throws_witness :
  insertUnifiedPlanSimulcastReceive
    (Samples.parseTo (Samples.parsedOf [Samples.audioSection; Samples.plainVideo]))
    Samples.writeText Samples.chromium Samples.offer
  <> Throw TypeError.
Proof.
  intros Hthrow.
  destruct (proj2 (insertUnifiedPlanSimulcastReceive_throws
                     (Samples.parseTo
                        (Samples.parsedOf [Samples.audioSection; Samples.plainVideo]))
                     Samples.writeText Samples.chromium Samples.offer) eq_refl)
    as [[Hto _] _].
  pose proof (Hto Hthrow) as Hall.
  inversion Hall as [| ? ? _ Hrest]. inversion Hrest as [| ? ? Hv _]. discriminate Hv.
Defined.

(** X25. When the rewriting of a parsed description returns, the result has
    the same session-level lines and as many sections; every section keeps
    its kind, sources, groupings and other lines, and a section that is not
    video is unchanged; and the first video section of the result has
    receive identifiers and a simulcast attribute. *)
Theorem insertUnifiedPlanSimulcastReceive_result (browser : Browser)
    (parsed parsed' : ParsedSdp) :
  insertUnifiedPlanSimulcastReceive_parsed browser parsed = Return parsed' ->
  session_lines parsed' = session_lines parsed
  /\ Forall2 (fun m m' =>
                without_simulcast m' = without_simulcast m
                /\ (is_video m = false -> m' = m))
             (media parsed) (media parsed')
  /\ exists i first',
       first_match is_video (media parsed') i first' /\ advertises first'.
Proof.
  intros Hreturn.
  assert (exists before first after,
            media parsed = before ++ first :: after
            /\ Forall (fun m => is_video m = false) before /\ is_video first = true)
    as (before & first & after & Hmedia & Hbefore & Hfirst).
  { unfold insertUnifiedPlanSimulcastReceive_parsed in Hreturn.
    destruct (js_index (media parsed) (findIndex is_video (media parsed)))
      as [first |] eqn:Hat; [| discriminate].
    destruct (first_split is_video _ _ Hat) as (before & after & ? & ? & ?).
    now exists before, first, after. }
  rewrite (insert_parsed_at_first browser _ before first after Hmedia Hbefore Hfirst)
    in Hreturn.
  injection Hreturn as <-. simpl. rewrite Hmedia.
  assert (Forall2 (fun m m' => without_simulcast m' = without_simulcast m
                               /\ (is_video m = false -> m' = m)) before before)
    as Hsame_before.
  { apply Forall2_same_length_lookup_2; [reflexivity |].
    intros i x y Hx Hy. rewrite Hx in Hy. injection Hy as <-. now split. }
  assert (Forall2 (fun m m' => without_simulcast m' = without_simulcast m
                               /\ (is_video m = false -> m' = m)) after after)
    as Hsame_after.
  { apply Forall2_same_length_lookup_2; [reflexivity |].
    intros i x y Hx Hy. rewrite Hx in Hy. injection Hy as <-. now split. }
  assert (forall first' rest,
            is_video first' = true ->
            first_match is_video (before ++ first' :: rest) (length before) first')
    as Hmatch.
  { intros first' rest Hv. repeat split.
    - now rewrite list_lookup_middle.
    - assumption.
    - intros j y Hj Hy. rewrite lookup_app_l in Hy by assumption.
      rewrite Forall_forall in Hbefore. apply Hbefore.
      eapply list_elem_of_lookup_2. exact Hy. }
  split; [reflexivity |].
  destruct (advertisesb first) eqn:Hadv.
  - split.
    + apply Forall2_app; [assumption |]. constructor; [now split |].
      unfold strip_videos. apply Forall2_fmap_r.
      apply Forall2_same_length_lookup_2; [reflexivity |].
      intros i x y Hx Hy. rewrite Hx in Hy. injection Hy as <-. simpl.
      destruct (is_video x); [split; [reflexivity | discriminate] | now split].
    + exists (length before), first. split; [now apply Hmatch |].
      unfold advertisesb in Hadv. apply andb_prop in Hadv as [Hr Hs].
      apply bool_decide_eq_true_1 in Hr. apply orb_prop in Hs.
      split; [assumption |].
      destruct Hs as [Hs | Hs]; apply bool_decide_eq_true_1 in Hs; auto.
  - split.
    + apply Forall2_app; [assumption |]. constructor; [| assumption].
      split; [reflexivity | congruence].
    + exists (length before), (add_simulcast browser first).
      split; [now apply Hmatch |].
      split; [eexists; reflexivity | left; eexists; reflexivity].
Qed.

Lemma insertUnifiedPlanSimulcastReceive_result_witness :
  exists i first',
    first_match is_video
      [Samples.audioSection; add_simulcast Samples.chromium Samples.plainVideo;
       Samples.plainVideo] i first'
    /\ advertises first'.
Proof.
  exact (proj2 (proj2
           (insertUnifiedPlanSimulcastReceive_result Samples.chromium
              (Samples.parsedOf
                 [Samples.audioSection; Samples.plainVideo; Samples.plainVideo])
              (Samples.parsedOf
                 [Samples.audioSection; add_simulcast Samples.chromium Samples.plainVideo;
                  Samples.plainVideo])
              eq_refl))).
Defined.

Lemma first_match_at_split (before : list MLine) (first : MLine) (rest : list MLine) :
  Forall (fun m => is_video m = false) before ->
  is_video first = true ->
  first_match is_video (before ++ first :: rest) (length before) first.
Proof.
  intros Hbefore Hfirst. repeat split.
  - now rewrite list_lookup_middle.
  - assumption.
  - intros j y Hj Hy. rewrite lookup_app_l in Hy by assumption.
    rewrite Forall_forall in Hbefore. apply Hbefore.
    eapply list_elem_of_lookup_2. exact Hy.
Qed.

Lemma advertisesb_advertises (m : MLine) : advertisesb m = true -> advertises m.
Proof.
  unfold advertisesb, advertises. intros H. apply andb_prop in H as [Hr Hs].
  apply bool_decide_eq_true_1 in Hr. apply orb_prop in Hs.
  split; [assumption |].
  destruct Hs as [Hs | Hs]; apply bool_decide_eq_true_1 in Hs; auto.
Qed.

(** X26. The rewriting settles at its second application: if it returns on a
    parsed description, it returns on its result, and what it returns then
    is returned unchanged by every further application. In that settled
    description the first video section has receive identifiers and a
    simulcast attribute, and it is the only video section with receive
    identifiers or a simulcast attribute. *)
Theorem insertUnifiedPlanSimulcastReceive_settles (browser : Browser)
    (parsed once : ParsedSdp) :
  insertUnifiedPlanSimulcastReceive_parsed browser parsed = Return once ->
  exists twice i first',
    insertUnifiedPlanSimulcastReceive_parsed browser once = Return twice
    /\ insertUnifiedPlanSimulcastReceive_parsed browser twice = Return twice
    /\ first_match is_video (media twice) i first'
    /\ advertises first'
    /\ carries_advertisement first' = true
    /\ (forall j m,
          media twice !! j = Some m ->
          is_video m = true -> carries_advertisement m = true -> j = i).
Proof.
  intros Hreturn.
  assert (exists before first after,
            media parsed = before ++ first :: after
            /\ Forall (fun m => is_video m = false) before /\ is_video first = true)
    as (before & first & after & Hmedia & Hbefore & Hfirst).
  { unfold insertUnifiedPlanSimulcastReceive_parsed in Hreturn.
    destruct (js_index (media parsed) (findIndex is_video (media parsed)))
      as [first |] eqn:Hat; [| discriminate].
    destruct (first_split is_video _ _ Hat) as (before & after & ? & ? & ?).
    now exists before, first, after. }
  rewrite (insert_parsed_at_first browser _ before first after Hmedia Hbefore Hfirst)
    in Hreturn.
  injection Hreturn as <-.
  assert (forall f rest,
            is_video f = true -> advertisesb f = true ->
            insertUnifiedPlanSimulcastReceive_parsed browser
              (set_media parsed (before ++ f :: rest))
            = Return (set_media parsed (before ++ f :: strip_videos rest))) as Hstrip.
  { intros f rest Hv Ha.
    rewrite (insert_parsed_at_first browser (set_media parsed (before ++ f :: rest))
               before f rest eq_refl Hbefore Hv).
    now rewrite Ha. }
  assert (forall f, advertisesb f = true -> carries_advertisement f = true) as Hcarries.
  { intros f Ha. unfold advertisesb in Ha. apply andb_prop in Ha as [Hr _].
    unfold carries_advertisement. now rewrite Hr. }
  destruct (advertisesb first) eqn:Hadv.
  - exists (set_media parsed (before ++ first :: strip_videos after)), (length before),
      first.
    split; [| split; [| split; [| split; [| split]]]].
    + rewrite (Hstrip first (strip_videos after) Hfirst Hadv).
      now rewrite strip_videos_again.
    + rewrite (Hstrip first (strip_videos after) Hfirst Hadv).
      now rewrite strip_videos_again.
    + now apply first_match_at_split.
    + now apply advertisesb_advertises.
    + now apply Hcarries.
    + simpl. now apply only_first_carries.
  - exists (set_media parsed
              (before ++ add_simulcast browser first :: strip_videos after)),
      (length before), (add_simulcast browser first).
    split; [| split; [| split; [| split; [| split]]]].
    + now rewrite (Hstrip (add_simulcast browser first) after Hfirst eq_refl).
    + rewrite (Hstrip (add_simulcast browser first) (strip_videos after) Hfirst eq_refl).
      now rewrite strip_videos_again.
    + now apply first_match_at_split.
    + now apply (advertisesb_advertises (add_simulcast browser first)).
    + reflexivity.
    + simpl. now apply only_first_carries.
Qed.

Lemma insertUnifiedPlanSimulcastReceive_settles_witness :
  exists twice i first',
    insertUnifiedPlanSimulcastReceive_parsed Samples.chromium
      (Samples.parsedOf
         [add_simulcast Samples.chromium Samples.plainVideo; Samples.advertising "video"])
    = Return twice
    /\ insertUnifiedPlanSimulcastReceive_parsed Samples.chromium twice = Return twice
    /\ first_match is_video (media twice) i first'
    /\ advertises first'
    /\ carries_advertisement first' = true
    /\ (forall j m,
          media twice !! j = Some m ->
          is_video m = true -> carries_advertisement m = true -> j = i).
Proof.
  exact (insertUnifiedPlanSimulcastReceive_settles Samples.chromium
           (Samples.parsedOf [Samples.plainVideo; Samples.advertising "video"])
           (Samples.parsedOf
              [add_simulcast Samples.chromium Samples.plainVideo;
               Samples.advertising "video"])
           eq_refl).
Defined.

(** After one application two video sections may still carry the
    advertisement: the first had none and gets it, the second had it and is
    not visited. *)
Example insertUnifiedPlanSimulcastReceive_once :
  insertUnifiedPlanSimulcastReceive_parsed Samples.chromium
    (Samples.parsedOf [Samples.plainVideo; Samples.advertising "video"])
  = Return (Samples.parsedOf
              [add_simulcast Samples.chromium Samples.plainVideo;
               Samples.advertising "video"])
  /\ map carries_advertisement
       [add_simulcast Samples.chromium Samples.plainVideo; Samples.advertising "video"]
     = [true; true].
Proof. split; reflexivity. Qed.
